(** * models.py: Dog, Breed and the DogHouse aggregate

    A shallow embedding of [models.py].  Python objects become records,
    the lists [self.breeds] / [self.dogs] become Rocq lists in insertion
    order, and the in-place [breed.add_dog(dog)] becomes an update of the
    list cell that holds that [Breed] (every [Breed] object is created by
    the breed loader and stored exactly once, so a cell of [self.breeds]
    is the object's identity).  The HTTP helpers [get] / [post] and
    [BASE_URL] of [utils] are parameters of the development; the state of
    the remote side is threaded explicitly and every request is logged. *)

From Stdlib Require Import ZArith Lia.
From stdpp Require Import base option list sets strings pretty.

Local Open Scope string_scope.
Local Open Scope list_scope.
Local Open Scope nat_scope.

(** ** Python values that occur in the posted payload *)

Inductive value : Type :=
  | VInt (z : Z)
  | VStr (s : string).

(** A [dict] literal keeps its keys in insertion order. *)
Definition dict : Type := list (string * value).

(** Exceptions the module can raise by itself. *)
Inductive exn : Type :=
  | AttributeError (msg : string)
  | IndexError (msg : string).

(** ** class Dog *)
Module Dog.
Record t : Type := mk { id : Z; name : string; breed : Z }.
End Dog.

(** ** class Breed *)
Module Breed.
Record t : Type := mk { id : Z; name : string; dogs : list Dog.t }.

(** [Breed(id=.., name=..)]: the dog list starts empty. *)
Definition new (id : Z) (name : string) : t := mk id name [].

(** [self.dogs.append(dog)] *)
Definition add_dog (self : t) (dog : Dog.t) : t :=
  mk (id self) (name self) (dogs self ++ [dog]).

(** [len(self.dogs)] *)
Definition dogs_count (self : t) : nat := length (dogs self).
End Breed.

(** ** Builtins used by the statistics *)

(** [max(iterable, key=key)] on a non-empty iterable [x :: xs]: one pass
    that replaces the running best only by a strictly greater key. *)
Definition py_max {A : Type} (key : A → nat) (x : A) (xs : list A) : A :=
  fold_left (λ best y, if key best <? key y then y else best) xs x.

(** [Counter]: a dict from element to count, in order of first insertion. *)
Fixpoint counter_incr (k : string) (c : list (string * nat)) : list (string * nat) :=
  match c with
  | [] => [(k, 1)]
  | (k', n) :: c' =>
      if String.eqb k' k then (k', S n) :: c' else (k', n) :: counter_incr k c'
  end.

Definition Counter (elems : list string) : list (string * nat) :=
  fold_left (λ c k, counter_incr k c) elems [].

(** [Counter.most_common(1)]: [heapq.nlargest(1, items, key=count)], which
    is [max] over the items in dict order, or [[]] for an empty counter. *)
Definition most_common_1 (c : list (string * nat)) : list (string * nat) :=
  match c with
  | [] => []
  | it :: its => [py_max snd it its]
  end.

(** The elements of a list in order of first occurrence: the keys of a
    [Counter] built from it. *)
Definition first_seen (elems : list string) : list string :=
  fold_left (λ acc k, if decide (k ∈ acc) then acc else acc ++ [k]) elems [].

(** How often [k] occurs in [l]. *)
Definition occurrences (k : string) (l : list string) : nat :=
  length (filter (λ x, x = k) l).

(** ** Records and responses delivered by the transport *)

(** One element of [results].  The breed loader reads ["id"] and ["name"];
    the dog loader reads ["breed"] with [.get] (so it may be absent) and,
    for a resolved dog, ["id"] and ["name"].  The fields read by
    subscript are present in every record, as the API's schema has them:
    integer ids and string names. *)
Record Item : Type := mkItem
  { item_id : Z; item_name : string; item_breed : option Z }.

(** The parsed body of a GET: every field is read with [.get]. *)
Record Response : Type := mkResponse
  { count : option Z; results : option (list Item); next : option string }.

(** A request as handed to [utils.get] / [utils.post]. *)
Inductive Request : Type :=
  | GET (url token : string)
  | POST (url : string) (payload : dict) (token : string).

(** Truth value of a url in [while url:] : [None] and [''] are false. *)
Definition truthy (url : option string) : option string :=
  match url with
  | Some u => if String.eqb u "" then None else Some u
  | None => None
  end.

(** ** class DogHouse *)
Module DogHouse.
Record t : Type := mk { breeds : list Breed.t; dogs : list Dog.t }.

(** [DogHouse()] *)
Definition new : t := mk [] [].

Definition get_total_breeds (self : t) : nat := length (breeds self).

Definition get_total_dogs (self : t) : nat := length (dogs self).

(** [None] of Python is [None] here. *)
Definition get_common_breed (self : t) : option Breed.t :=
  match breeds self with
  | [] => None
  | b :: bs => Some (py_max Breed.dogs_count b bs)
  end.

Definition get_common_dog_name (self : t) : exn + string :=
  match dogs self with
  | [] => inr ""
  | _ :: _ =>
      let name_count := Counter (map Dog.name (dogs self)) in
      match most_common_1 name_count with
      | [] => inl (IndexError "list index out of range")
      | (n, _) :: _ => inr n
      end
  end.

(** The body of [for breed_data in results] in [_get_breeds_data]. *)
Definition add_breed_record (self : t) (breed_data : Item) : t :=
  mk (breeds self ++ [Breed.new (item_id breed_data) (item_name breed_data)])
     (dogs self).

(** [next((b for b in self.breeds if b.id == breed_id), None)]: the
    position and value of the first breed with that id.  An absent
    ["breed"] field is [None], which equals no integer id. *)
Definition find_breed (self : t) (breed_id : option Z) : option (nat * Breed.t) :=
  match breed_id with
  | Some i => list_find (λ b, Breed.id b = i) (breeds self)
  | None => None
  end.

(** The body of [for dog_data in results] in [_get_dogs_data]. *)
Definition add_dog_record (self : t) (dog_data : Item) : t :=
  match find_breed self (item_breed dog_data) with
  | Some (i, breed) =>
      let dog := Dog.mk (item_id dog_data) (item_name dog_data) (Breed.id breed) in
      mk (<[i := Breed.add_dog breed dog]> (breeds self)) (dogs self ++ [dog])
  | None => self
  end.

(** *** The side of the module that talks to the API

    [utils.get], [utils.post] and [utils.BASE_URL] are not part of this
    file; they are taken as parameters.  [W] is the state of everything
    behind the transport (server, network), so a request may answer
    differently each time. *)
Section Transport.
Variable W : Type.
Variable PostResp : Type.
Variable BASE_URL : string.
Variable get : string → string → W → Response * W.
Variable post : string → dict → string → W → PostResp * W.

(** What the program has done to the outside: the remote state, the
    requests issued so far and the lines printed so far. *)
Record IO : Type := mkIO
  { world : W; sent : list Request; stdout : list PostResp }.

Definition do_get (url token : string) (io : IO) : Response * IO :=
  let (response, w) := get url token (world io) in
  (response, mkIO w (sent io ++ [GET url token]) (stdout io)).

Definition do_post (url : string) (payload : dict) (token : string) (io : IO)
  : PostResp * IO :=
  let (response, w) := post url payload token (world io) in
  (response, mkIO w (sent io ++ [POST url payload token]) (stdout io)).

Definition print (response : PostResp) (io : IO) : IO :=
  mkIO (world io) (sent io) (stdout io ++ [response]).

Definition breeds_url (limit_breeds : Z) : string :=
  BASE_URL +:+ "/api/v1/breeds/?limit=" +:+ pretty limit_breeds.

Definition dogs_url : string := BASE_URL +:+ "/api/v1/dogs/".

Definition answer_url : string := BASE_URL +:+ "/api/v1/answer/".

(** [while url_breeds: ...] of [_get_breeds_data].  [fuel] bounds the
    number of iterations; [None] means the bound was reached with the
    loop still running. *)
Fixpoint breeds_loop (fuel : nat) (url_breeds : option string) (token : string)
    (self : t) (io : IO) {struct fuel} : option (t * IO) :=
  match truthy url_breeds with
  | None => Some (self, io)
  | Some url =>
      match fuel with
      | O => None
      | S fuel' =>
          let (response, io') := do_get url token io in
          let self' :=
            fold_left add_breed_record (default [] (results response)) self in
          breeds_loop fuel' (next response) token self' io'
      end
  end.

Definition _get_breeds_data (fuel : nat) (token : string) (self : t) (io : IO)
  : option (t * IO) :=
  let (response, io') := do_get (breeds_url 1) token io in
  let total_breeds := default 0%Z (count response) in
  let limit_breeds := Z.min 100 total_breeds in
  let url_breeds := breeds_url limit_breeds in
  breeds_loop fuel (Some url_breeds) token self io'.

(** [while url_dogs: ...] of [_get_dogs_data]. *)
Fixpoint dogs_loop (fuel : nat) (url_dogs : option string) (token : string)
    (self : t) (io : IO) {struct fuel} : option (t * IO) :=
  match truthy url_dogs with
  | None => Some (self, io)
  | Some url =>
      match fuel with
      | O => None
      | S fuel' =>
          let (response, io') := do_get url token io in
          let self' :=
            fold_left add_dog_record (default [] (results response)) self in
          dogs_loop fuel' (next response) token self' io'
      end
  end.

Definition _get_dogs_data (fuel : nat) (token : string) (self : t) (io : IO)
  : option (t * IO) :=
  dogs_loop fuel (Some dogs_url) token self io.

(** The shape the two loops share, with the action on one record as
    a parameter.  It is not part of the program; it lets one argument
    about the pagination serve both loops. *)
Fixpoint paginate (step : t → Item → t) (fuel : nat) (url : option string)
    (token : string) (self : t) (io : IO) {struct fuel} : option (t * IO) :=
  match truthy url with
  | None => Some (self, io)
  | Some u =>
      match fuel with
      | O => None
      | S fuel' =>
          let (response, io') := do_get u token io in
          paginate step fuel' (next response) token
            (fold_left step (default [] (results response)) self) io'
      end
  end.

(** Each loader gets its own iteration bound. *)
Definition get_data (fuel : nat) (token : string) (self : t) (io : IO)
  : option (t * IO) :=
  match _get_breeds_data fuel token self io with
  | Some (self', io') => _get_dogs_data fuel token self' io'
  | None => None
  end.

(** [send_data] returns nothing; its effect is the POST and the
    printed response, or the exception raised while the payload is
    built (the dict literal evaluates its values top to bottom). *)
Definition send_data (data : dict) (token : string) (self : t) (io : IO)
  : exn + IO :=
  let totalBreeds := get_total_breeds self in
  let totalDogs := get_total_dogs self in
  match get_common_breed self with
  | None => inl (AttributeError "'NoneType' object has no attribute 'name'")
  | Some common_breed =>
      match get_common_dog_name self with
      | inl e => inl e
      | inr commonDogName =>
          let data :=
            [ ("totalBreeds", VInt (Z.of_nat totalBreeds));
              ("totalDogs", VInt (Z.of_nat totalDogs));
              ("commonBreed", VStr (Breed.name common_breed));
              ("commonDogName", VStr commonDogName) ] in
          let (response, io') := do_post answer_url data token io in
          inr (print response io')
      end
  end.

(** *** Vocabulary of the specification *)

(** [paged token url w pages w']: starting with cursor [url] and
    remote state [w], following the cursors makes the transport
    deliver exactly [pages] (each with the url it was requested at)
    and leaves the remote state [w']; the cursor of the last page,
    and only of that one, is false. *)
Inductive paged (token : string)
  : option string → W → list (string * Response) → W → Prop :=
  | paged_end url w :
      truthy url = None → paged token url w [] w
  | paged_page url u w r w1 pages w2 :
      truthy url = Some u →
      get u token w = (r, w1) →
      paged token (next r) w1 pages w2 →
      paged token url w ((u, r) :: pages) w2.

(** A house the loaders can produce from [DogHouse()]; [get_data] is
    the breed loader followed by the dog loader. *)
Inductive loaded : t → Prop :=
  | loaded_new : loaded new
  | loaded_breeds fuel token self io self' io' :
      loaded self →
      _get_breeds_data fuel token self io = Some (self', io') →
      loaded self'
  | loaded_dogs fuel token self io self' io' :
      loaded self →
      _get_dogs_data fuel token self io = Some (self', io') →
      loaded self'.
End Transport.

Arguments mkIO {W PostResp}.
Arguments world {W PostResp}.
Arguments sent {W PostResp}.
Arguments stdout {W PostResp}.
Arguments do_get {W PostResp}.
Arguments do_post {W PostResp}.
Arguments print {W PostResp}.
Arguments breeds_loop {W PostResp}.
Arguments dogs_loop {W PostResp}.
Arguments paginate {W PostResp}.
Arguments _get_breeds_data {W PostResp}.
Arguments _get_dogs_data {W PostResp}.
Arguments get_data {W PostResp}.
Arguments send_data {W PostResp}.
Arguments paged {W}.
Arguments loaded {W}.

(** All records of a run of pages, in the order received. *)
Definition records (pages : list (string * Response)) : list Item :=
  concat (map (λ p, default [] (results p.2)) pages).

(** The dog built from a record whose breed id is among [ids]. *)
Definition resolve (ids : list Z) (dog_data : Item) : option Dog.t :=
  match item_breed dog_data with
  | Some i =>
      if decide (i ∈ ids)
      then Some (Dog.mk (item_id dog_data) (item_name dog_data) i)
      else None
  | None => None
  end.

(** *** The invariants of the data model *)

Definition breed_ids (self : t) : list Z := map Breed.id (breeds self).

Definition unique_breeds (self : t) : Prop := NoDup (breed_ids self).

Definition dogs_have_breed (self : t) : Prop :=
  ∀ d, d ∈ dogs self → ∃ b, b ∈ breeds self ∧ Breed.id b = Dog.breed d.

Definition dogs_of (i : Z) (ds : list Dog.t) : list Dog.t :=
  filter (λ d, Dog.breed d = i) ds.

Definition breed_dogs_exact (self : t) : Prop :=
  ∀ b, b ∈ breeds self → Breed.dogs b = dogs_of (Breed.id b) (dogs self).

(** The breed stored at position [i] is the first one with its id. *)
Definition first_with_id (bs : list Breed.t) (i : nat) (b : Breed.t) : Prop :=
  bs !! i = Some b ∧
  ∀ j b', j < i → bs !! j = Some b' → Breed.id b' ≠ Breed.id b.

(** The third invariant for the breeds that dog records resolve to. *)
Definition first_breed_dogs_exact (self : t) : Prop :=
  ∀ i b, first_with_id (breeds self) i b →
         Breed.dogs b = dogs_of (Breed.id b) (dogs self).
End DogHouse.

(** ** Predicates used in the proofs *)

(** The total of dogs is the sum of the breeds' dog counts. *)
Definition sums_agree (self : DogHouse.t) : Prop :=
  DogHouse.get_total_dogs self =
  sum_list_with Breed.dogs_count (DogHouse.breeds self).

(** What the loaders keep true, whatever ids the API delivers. *)
Definition well_linked (self : DogHouse.t) : Prop :=
  DogHouse.dogs_have_breed self ∧ DogHouse.first_breed_dogs_exact self.

(** The requests of a run of pages, in order. *)
Definition requests_of (token : string) (pages : list (string * Response))
  : list Request :=
  map (λ p, GET p.1 token) pages.

(** ** A scripted transport, used to run the loaders on concrete data

    The remote state is the list of responses still to be delivered;
    each GET takes the next one, and an exhausted script answers with an
    empty body. *)
Definition script_get (url token : string) (w : list Response)
  : Response * list Response :=
  match w with
  | [] => (mkResponse None None None, [])
  | r :: w' => (r, w')
  end.

Definition script_post (url : string) (payload : dict) (token : string)
    (w : list Response) : unit * list Response :=
  (tt, w).

Definition io0 (w : list Response) : DogHouse.IO (list Response) unit :=
  DogHouse.mkIO w [] [].

(** A page of [n] records with ids [first], [first + 1], ..., all of
    breed 1. *)
Definition page (first n : nat) (next : option string) : Response :=
  mkResponse None
    (Some (map (λ i, mkItem (Z.of_nat i) "Bobby" (Some 1%Z)) (seq first n)))
    next.

(** Three pages of 100, 100 and 37 records. *)
Definition three_pages : list Response :=
  [ page 0 100 (Some "page2"); page 100 100 (Some "page3"); page 200 37 None ].

(** A whole session: the probe, two pages of breeds, two pages of dogs.
    Dog 13 names a breed that does not exist and dog 14 names none. *)
Definition session : list Response :=
  [ mkResponse (Some 3%Z) (Some [mkItem 1 "A" None]) (Some "breeds?page=2");
    mkResponse (Some 3%Z) (Some [mkItem 1 "A" None; mkItem 2 "B" None])
      (Some "breeds?page=2");
    mkResponse (Some 3%Z) (Some [mkItem 3 "C" None]) None;
    mkResponse (Some 5%Z)
      (Some [mkItem 10 "Rex" (Some 1%Z); mkItem 11 "Fido" (Some 2%Z);
             mkItem 13 "Stray" (Some 9%Z)])
      (Some "dogs?page=2");
    mkResponse (Some 5%Z)
      (Some [mkItem 14 "Ghost" None; mkItem 12 "Rex" (Some 1%Z)]) None ].

(** A session in which the API lists breed id 1 twice. *)
Definition session_twice : list Response :=
  [ mkResponse (Some 2%Z) (Some [mkItem 1 "A" None]) (Some "breeds?page=2");
    mkResponse (Some 2%Z) (Some [mkItem 1 "A" None; mkItem 1 "A" None]) None;
    mkResponse (Some 1%Z) (Some [mkItem 10 "Rex" (Some 1%Z)]) None ].

(** The breeds of [session] before any dog is loaded, and the house
    after the whole session. *)
Definition house_breeds_only : DogHouse.t :=
  DogHouse.mk [Breed.new 1 "A"; Breed.new 2 "B"; Breed.new 3 "C"] [].

Definition house_session : DogHouse.t :=
  DogHouse.mk
    [ Breed.mk 1 "A" [Dog.mk 10 "Rex" 1; Dog.mk 12 "Rex" 1];
      Breed.mk 2 "B" [Dog.mk 11 "Fido" 2];
      Breed.mk 3 "C" [] ]
    [ Dog.mk 10 "Rex" 1; Dog.mk 11 "Fido" 2; Dog.mk 12 "Rex" 1 ].

(** The pages of [session] as the loops meet them, with their urls (for
    an empty [BASE_URL]). *)
Definition breed_pages : list (string * Response) :=
  zip ["/api/v1/breeds/?limit=3"; "breeds?page=2"] (take 2 (drop 1 session)).

Definition dog_pages : list (string * Response) :=
  zip ["/api/v1/dogs/"; "dogs?page=2"] (drop 3 session).

Definition three_pages_at : list (string * Response) :=
  zip ["page1"; "page2"; "page3"] three_pages.

(** The requests of the whole [session], and of its breed phase. *)
Definition breed_requests : list Request :=
  [ GET "/api/v1/breeds/?limit=1" "token";
    GET "/api/v1/breeds/?limit=3" "token";
    GET "breeds?page=2" "token" ].

Definition session_requests : list Request :=
  breed_requests ++ [ GET "/api/v1/dogs/" "token"; GET "dogs?page=2" "token" ].

Definition house_twice : DogHouse.t :=
  DogHouse.mk
    [ Breed.mk 1 "A" [Dog.mk 10 "Rex" 1]; Breed.mk 1 "A" [] ]
    [ Dog.mk 10 "Rex" 1 ].

(** Example data of the specification. *)
Definition rex (i : Z) : Dog.t := Dog.mk i "Rex" 1.
Definition fido (i : Z) : Dog.t := Dog.mk i "Fido" 2.

Definition house_ABC : DogHouse.t :=
  DogHouse.mk
    [ Breed.mk 1 "A" [rex 10; rex 11];
      Breed.mk 2 "B" [fido 20; fido 21];
      Breed.mk 3 "C" [Dog.mk 30 "Bobby" 3] ]
    [rex 10; fido 20; rex 11; fido 21; Dog.mk 30 "Bobby" 3].

Definition house_rex_fido : DogHouse.t :=
  DogHouse.mk
    [ Breed.mk 1 "A" [rex 10; rex 11]; Breed.mk 2 "B" [fido 20; fido 21] ]
    [rex 10; fido 20; rex 11; fido 21].

(** ** Vocabulary of the further properties *)

(** The dict literal that [send_data] builds. *)
Definition answer (totalBreeds totalDogs : nat) (commonBreed commonDogName : string)
  : dict :=
  [ ("totalBreeds", VInt (Z.of_nat totalBreeds));
    ("totalDogs", VInt (Z.of_nat totalDogs));
    ("commonBreed", VStr commonBreed);
    ("commonDogName", VStr commonDogName) ].

(** [b'] is [b] after some calls of [add_dog]. *)
Definition same_breed_grown (b b' : Breed.t) : Prop :=
  Breed.id b' = Breed.id b ∧ Breed.name b' = Breed.name b ∧
  Breed.dogs b `prefix_of` Breed.dogs b'.

(** [h] is [self] after appends only: the old dogs and the old breeds are
    still there, in place, and the old breeds have only gained dogs. *)
Definition grows (self h : DogHouse.t) : Prop :=
  DogHouse.dogs self `prefix_of` DogHouse.dogs h ∧
  ∃ old new,
    DogHouse.breeds h = old ++ new ∧
    Forall2 same_breed_grown (DogHouse.breeds self) old.

(** The breed at position [i] comes after another breed with its id. *)
Definition shadowed (bs : list Breed.t) (i : nat) (b : Breed.t) : Prop :=
  bs !! i = Some b ∧
  ∃ j b', j < i ∧ bs !! j = Some b' ∧ Breed.id b' = Breed.id b.

Definition shadowed_breeds_empty (self : DogHouse.t) : Prop :=
  ∀ i b, shadowed (DogHouse.breeds self) i b → Breed.dogs b = [].

(** * Properties *)

(** ** [max] with a key: the first maximal element *)

Lemma py_max_snoc {A : Type} (key : A → nat) (x : A) (xs : list A) (y : A) :
  py_max key x (xs ++ [y]) =
  if key (py_max key x xs) <? key y then y else py_max key x xs.
Proof. unfold py_max. by rewrite fold_left_app. Qed.

Lemma py_max_split {A : Type} (key : A → nat) (x : A) (xs : list A) :
  ∃ l1 l2,
    x :: xs = l1 ++ py_max key x xs :: l2 ∧
    Forall (λ y, key y < key (py_max key x xs)) l1 ∧
    Forall (λ y, key y ≤ key (py_max key x xs)) l2.
Proof.
  induction xs as [|y xs IH] using rev_ind.
  - exists [], []. by repeat split.
  - destruct IH as (l1 & l2 & Heq & Hlt & Hle).
    rewrite py_max_snoc. set (m := py_max key x xs) in *.
    destruct (Nat.ltb_spec (key m) (key y)) as [Hm|Hm].
    + exists (l1 ++ m :: l2), []. split_and!.
      * by rewrite app_comm_cons, Heq.
      * apply Forall_app. split; [|apply Forall_cons; split; [done|]].
        -- eapply Forall_impl; [exact Hlt|]. simpl. lia.
        -- eapply Forall_impl; [exact Hle|]. simpl. lia.
      * constructor.
    + exists l1, (l2 ++ [y]). split_and!.
      * by rewrite app_comm_cons, Heq, <- app_assoc.
      * done.
      * apply Forall_app. split; [done|]. by repeat constructor.
Qed.

(** ** [Counter]: keys in order of first occurrence, values the counts *)

Lemma occurrences_snoc (x k : string) (l : list string) :
  occurrences x (l ++ [k]) = occurrences x l + (if decide (k = x) then 1 else 0).
Proof.
  unfold occurrences. rewrite filter_app, length_app. f_equal.
  rewrite filter_cons, filter_nil. by case_decide.
Qed.

Lemma occurrences_notin (x : string) (l : list string) :
  x ∉ l → occurrences x l = 0.
Proof.
  intros Hx. unfold occurrences.
  destruct (filter (λ y, y = x) l) as [|y l'] eqn:E; [done|].
  assert (y ∈ filter (λ y, y = x) l) as Hy by (rewrite E; by left).
  apply list_elem_of_filter in Hy as [-> ?]. done.
Qed.

Lemma first_seen_snoc (l : list string) (k : string) :
  first_seen (l ++ [k]) =
  if decide (k ∈ first_seen l) then first_seen l else first_seen l ++ [k].
Proof. unfold first_seen. by rewrite fold_left_app. Qed.

Lemma first_seen_elem_of (l : list string) (k : string) :
  k ∈ first_seen l ↔ k ∈ l.
Proof.
  induction l as [|x l IH] using rev_ind; [done|].
  rewrite first_seen_snoc. case_decide; set_solver.
Qed.

Lemma first_seen_NoDup (l : list string) : NoDup (first_seen l).
Proof.
  induction l as [|x l IH] using rev_ind; [constructor|].
  rewrite first_seen_snoc. case_decide; [done|].
  apply NoDup_app. split_and!; [done|set_solver|apply NoDup_singleton].
Qed.

(** A key of the counter splits the input at the key's first occurrence,
    and everything before that occurrence is an earlier key. *)
Lemma first_seen_split (l : list string) (k1 k2 : list string) (n : string) :
  first_seen l = k1 ++ n :: k2 →
  ∃ l1 l2, l = l1 ++ n :: l2 ∧ (n ∉ l1) ∧ ∀ m, m ∈ l1 → m ∈ k1.
Proof.
  revert k2. induction l as [|x l IH] using rev_ind; intros k2 Heq.
  - by destruct k1.
  - rewrite first_seen_snoc in Heq. case_decide as Hx.
    + destruct (IH _ Heq) as (l1 & l2 & -> & ? & ?).
      exists l1, (l2 ++ [x]). by rewrite <- app_assoc.
    + destruct k2 as [|y k2 _] using rev_ind.
      * apply app_inj_tail in Heq as [<- <-].
        exists l, []. split_and!; [done|by rewrite <- first_seen_elem_of|].
        intros m. by rewrite first_seen_elem_of.
      * rewrite app_comm_cons, app_assoc in Heq.
        apply app_inj_tail in Heq as [Heq _].
        destruct (IH _ Heq) as (l1 & l2 & -> & ? & ?).
        exists l1, (l2 ++ [x]). by rewrite <- app_assoc.
Qed.

Lemma counter_incr_map (k : string) (f g : string → nat) (keys : list string) :
  (∀ x, x ≠ k → g x = f x) → g k = S (f k) → NoDup keys →
  counter_incr k (map (λ x, (x, f x)) keys) =
  map (λ x, (x, g x)) keys ++ (if decide (k ∈ keys) then [] else [(k, 1)]).
Proof.
  intros Hne Hk. induction keys as [|x keys IH]; intros Hnd; [done|].
  apply NoDup_cons in Hnd as [Hx Hnd]. cbn [map counter_incr].
  destruct (String.eqb_spec x k) as [->|Hxk].
  - rewrite decide_True by by left. rewrite app_nil_r, Hk. f_equal.
    apply map_ext_in. intros y Hy%list_elem_of_In. rewrite Hne; [done|].
    by intros ->.
  - rewrite IH by done. rewrite (Hne x Hxk). cbn [app]. do 2 f_equal.
    repeat case_decide; set_solver.
Qed.

Lemma Counter_spec (l : list string) :
  Counter l = map (λ k, (k, occurrences k l)) (first_seen l).
Proof.
  induction l as [|x l IH] using rev_ind; [done|].
  unfold Counter in *. rewrite fold_left_app. cbn [fold_left]. rewrite IH.
  rewrite (counter_incr_map x _ (λ k, occurrences k (l ++ [x]))).
  - rewrite first_seen_snoc. case_decide as Hx; [by rewrite app_nil_r|].
    rewrite map_app. cbn [map]. do 3 f_equal.
    rewrite occurrences_snoc, decide_True by done.
    rewrite occurrences_notin; [done|]. by rewrite <- first_seen_elem_of.
  - intros y Hy. rewrite occurrences_snoc, decide_False by done. lia.
  - rewrite occurrences_snoc, decide_True by done. lia.
  - apply first_seen_NoDup.
Qed.

(** ** The statistics *)

(** C3. On a non-empty breed list [get_common_breed] returns a breed of
    the list whose dog count is maximal, and every breed stored before it
    has strictly fewer dogs: among ties the first inserted wins. *)
Theorem get_common_breed_first_max (self : DogHouse.t) :
  DogHouse.breeds self ≠ [] →
  ∃ b l1 l2,
    DogHouse.get_common_breed self = Some b ∧
    DogHouse.breeds self = l1 ++ b :: l2 ∧
    Forall (λ b', Breed.dogs_count b' < Breed.dogs_count b) l1 ∧
    Forall (λ b', Breed.dogs_count b' ≤ Breed.dogs_count b) l2.
Proof.
  unfold DogHouse.get_common_breed.
  destruct (DogHouse.breeds self) as [|b0 bs]; [done|intros _].
  destruct (py_max_split Breed.dogs_count b0 bs) as (l1 & l2 & ? & ? & ?).
  by exists (py_max Breed.dogs_count b0 bs), l1, l2.
Qed.

(** The example of C3: A and B with two dogs each, C with one, loaded in
    the order A, B, C. *)
Lemma get_common_breed_witness :
  DogHouse.breeds house_ABC ≠ [] ∧
  DogHouse.get_common_breed house_ABC = Some (Breed.mk 1 "A" [rex 10; rex 11]) ∧
  ∃ b l1 l2,
    DogHouse.get_common_breed house_ABC = Some b ∧
    DogHouse.breeds house_ABC = l1 ++ b :: l2 ∧
    Forall (λ b', Breed.dogs_count b' < Breed.dogs_count b) l1 ∧
    Forall (λ b', Breed.dogs_count b' ≤ Breed.dogs_count b) l2.
Proof.
  split; [done|]. split; [reflexivity|].
  apply (get_common_breed_first_max house_ABC). done.
Defined.

(** The same example for arbitrary breeds with these dog counts. *)
Lemma get_common_breed_A_B_C (A B C : Breed.t) (ds : list Dog.t) :
  Breed.dogs_count A = 2 → Breed.dogs_count B = 2 → Breed.dogs_count C = 1 →
  DogHouse.get_common_breed (DogHouse.mk [A; B; C] ds) = Some A.
Proof.
  intros HA HB HC. unfold DogHouse.get_common_breed, py_max.
  cbn [DogHouse.breeds fold_left]. rewrite HA, HB. cbn [Nat.ltb Nat.leb].
  by rewrite HA, HC.
Qed.

(** C4. On a non-empty dog list [get_common_dog_name] returns a name that
    occurs at least as often as every other, and every name seen before
    its first occurrence occurs strictly less often: among ties the name
    seen first wins. *)
Theorem get_common_dog_name_first_most_frequent (self : DogHouse.t) :
  DogHouse.dogs self ≠ [] →
  let names := map Dog.name (DogHouse.dogs self) in
  ∃ n l1 l2,
    DogHouse.get_common_dog_name self = inr n ∧
    names = l1 ++ n :: l2 ∧
    (n ∉ l1) ∧
    (∀ m, m ∈ l1 → occurrences m names < occurrences n names) ∧
    (∀ m, occurrences m names ≤ occurrences n names).
Proof.
  intros Hne. cbv zeta. unfold DogHouse.get_common_dog_name.
  remember (map Dog.name (DogHouse.dogs self)) as names eqn:Hnames.
  destruct (DogHouse.dogs self) as [|d ds]; [done|].
  rewrite Counter_spec.
  destruct (first_seen names) as [|k0 ks] eqn:Hfs.
  { assert (Dog.name d ∈ first_seen names) as Hin
      by (apply first_seen_elem_of; rewrite Hnames; by left).
    rewrite Hfs in Hin. by apply elem_of_nil in Hin. }
  cbn [map most_common_1].
  set (f := λ k, (k, occurrences k names)).
  destruct (py_max_split snd (f k0) (map f ks)) as (i1 & i2 & Heq & Hlt & Hle).
  destruct (py_max snd (f k0) (map f ks)) as [n c] eqn:Hmax.
  change (f k0 :: map f ks) with (f <$> (k0 :: ks)) in Heq.
  apply fmap_app_inv in Heq as (k1 & k2' & -> & Hk2 & Hks).
  symmetry in Hk2. apply fmap_cons_inv in Hk2 as (n' & k2 & [= <- ->] & -> & ->).
  rewrite <- Hfs in Hks.
  destruct (first_seen_split _ _ _ _ Hks) as (l1 & l2 & Hsplit & Hn & Hl1).
  exists n, l1, l2. split_and!; [|done..| |].
  - change (k0, occurrences k0 names) with (f k0). by rewrite Hmax.
  - intros m Hm%Hl1. rewrite Forall_fmap, Forall_forall in Hlt.
    apply (Hlt m Hm).
  - intros m. destruct (decide (m ∈ names)) as [Hm|Hm].
    + apply first_seen_elem_of in Hm. rewrite Hks in Hm.
      rewrite Forall_fmap, Forall_forall in Hlt, Hle.
      apply elem_of_app in Hm as [Hm|[->|Hm]%elem_of_cons].
      * specialize (Hlt m Hm). simpl in Hlt. lia.
      * done.
      * apply (Hle m Hm).
    + rewrite (occurrences_notin m names Hm). lia.
Qed.

(** The example of C4: Rex, Fido, Rex, Fido. *)
Lemma get_common_dog_name_witness :
  DogHouse.dogs house_rex_fido ≠ [] ∧
  map Dog.name (DogHouse.dogs house_rex_fido) = ["Rex"; "Fido"; "Rex"; "Fido"] ∧
  DogHouse.get_common_dog_name house_rex_fido = inr "Rex" ∧
  ∃ n l1 l2,
    DogHouse.get_common_dog_name house_rex_fido = inr n ∧
    map Dog.name (DogHouse.dogs house_rex_fido) = l1 ++ n :: l2 ∧
    (n ∉ l1) ∧
    (∀ m, m ∈ l1 →
       occurrences m (map Dog.name (DogHouse.dogs house_rex_fido)) <
       occurrences n (map Dog.name (DogHouse.dogs house_rex_fido))) ∧
    (∀ m, occurrences m (map Dog.name (DogHouse.dogs house_rex_fido)) ≤
          occurrences n (map Dog.name (DogHouse.dogs house_rex_fido))).
Proof.
  split; [done|]. split; [reflexivity|]. split; [reflexivity|].
  apply (get_common_dog_name_first_most_frequent house_rex_fido). done.
Defined.

(** The winner is the name seen first, not the name that reaches the top
    count first: in Rex, Fido, Fido, Rex it is Fido that gets to two
    first, and Rex is returned. *)
Example get_common_dog_name_rex_fido_fido_rex :
  DogHouse.get_common_dog_name
    (DogHouse.mk [] [rex 1; fido 2; fido 3; rex 4]) = inr "Rex".
Proof. reflexivity. Qed.

(** C8. On the empty aggregate the totals are 0, the common dog name is
    the empty string and the common breed is [None]. *)
Theorem empty_aggregate_statistics :
  DogHouse.get_total_breeds DogHouse.new = 0 ∧
  DogHouse.get_total_dogs DogHouse.new = 0 ∧
  DogHouse.get_common_dog_name DogHouse.new = inr "" ∧
  DogHouse.get_common_breed DogHouse.new = None.
Proof. by repeat split. Qed.

(** ** One record at a time *)

Lemma add_breed_records (items : list Item) (self : DogHouse.t) :
  fold_left DogHouse.add_breed_record items self =
  DogHouse.mk
    (DogHouse.breeds self ++
       map (λ it, Breed.new (item_id it) (item_name it)) items)
    (DogHouse.dogs self).
Proof.
  revert self. induction items as [|it items IH]; intros self.
  - destruct self. simpl. by rewrite app_nil_r.
  - cbn [fold_left]. rewrite IH. unfold DogHouse.add_breed_record.
    cbn [DogHouse.breeds DogHouse.dogs map]. by rewrite <- app_assoc.
Qed.

Lemma find_breed_Some (self : DogHouse.t) (breed_id : option Z) i b :
  DogHouse.find_breed self breed_id = Some (i, b) ↔
  breed_id = Some (Breed.id b) ∧ DogHouse.first_with_id (DogHouse.breeds self) i b.
Proof.
  unfold DogHouse.find_breed, DogHouse.first_with_id.
  destruct breed_id as [z|]; [|naive_solver].
  rewrite list_find_Some. split.
  - intros (Hi & <- & Hleast). split_and!; [done..|]. intros j b' Hj Hb' Heq.
    by apply (Hleast j b').
  - intros ([= ->] & Hi & Hleast). split_and!; [done..|]. intros j b' Hb' Hj Heq.
    by apply (Hleast j b').
Qed.

Lemma find_breed_None (self : DogHouse.t) (breed_id : option Z) :
  DogHouse.find_breed self breed_id = None ↔
  ∀ b, b ∈ DogHouse.breeds self → breed_id ≠ Some (Breed.id b).
Proof.
  unfold DogHouse.find_breed. destruct breed_id as [z|]; [|naive_solver].
  rewrite list_find_None, Forall_forall. naive_solver.
Qed.

Lemma add_dog_record_ids (self : DogHouse.t) (dog_data : Item) :
  DogHouse.breed_ids (DogHouse.add_dog_record self dog_data) =
  DogHouse.breed_ids self.
Proof.
  unfold DogHouse.add_dog_record.
  destruct (DogHouse.find_breed _ _) as [[i b]|] eqn:Hf; [|done].
  apply find_breed_Some in Hf as (_ & Hi & _).
  unfold DogHouse.breed_ids. cbn [DogHouse.breeds].
  change map with (@fmap list _). rewrite list_fmap_insert.
  apply list_insert_id. by rewrite list_lookup_fmap, Hi.
Qed.

Lemma add_dog_record_dogs (self : DogHouse.t) (dog_data : Item) :
  DogHouse.dogs (DogHouse.add_dog_record self dog_data) =
  DogHouse.dogs self ++
    option_list (DogHouse.resolve (DogHouse.breed_ids self) dog_data).
Proof.
  unfold DogHouse.add_dog_record, DogHouse.resolve.
  destruct (DogHouse.find_breed _ _) as [[i b]|] eqn:Hf.
  - apply find_breed_Some in Hf as (-> & Hi & _).
    rewrite decide_True; [done|].
    apply list_elem_of_fmap. exists b. split; [done|].
    by eapply list_elem_of_lookup_2.
  - destruct (item_breed dog_data) as [z|]; [|by rewrite app_nil_r].
    rewrite decide_False; [by rewrite app_nil_r|].
    intros (b & -> & Hb)%list_elem_of_fmap.
    by eapply find_breed_None in Hf.
Qed.

Lemma add_dog_records_ids (items : list Item) (self : DogHouse.t) :
  DogHouse.breed_ids (fold_left DogHouse.add_dog_record items self) =
  DogHouse.breed_ids self.
Proof.
  revert self. induction items as [|it items IH]; intros self; [done|].
  cbn [fold_left]. by rewrite IH, add_dog_record_ids.
Qed.

Lemma add_dog_records_dogs (items : list Item) (self : DogHouse.t) :
  DogHouse.dogs (fold_left DogHouse.add_dog_record items self) =
  DogHouse.dogs self ++ omap (DogHouse.resolve (DogHouse.breed_ids self)) items.
Proof.
  revert self. induction items as [|it items IH]; intros self.
  - by rewrite app_nil_r.
  - cbn [fold_left]. rewrite IH, add_dog_record_ids, add_dog_record_dogs.
    rewrite <- app_assoc. f_equal. cbn [omap list_omap].
    by destruct (DogHouse.resolve _ it).
Qed.

(** ** What every step of a loader preserves *)

Lemma sum_list_with_insert {A : Type} (f : A → nat) (l : list A) i x y :
  l !! i = Some x →
  sum_list_with f (<[i := y]> l) + f x = sum_list_with f l + f y.
Proof.
  intros Hi. rewrite insert_take_drop by by eapply lookup_lt_Some.
  rewrite <- (take_drop_middle l i x Hi) at 3.
  rewrite !sum_list_with_app. cbn [sum_list_with]. lia.
Qed.

Lemma dogs_of_nil (i : Z) (ds : list Dog.t) :
  (∀ d, d ∈ ds → Dog.breed d ≠ i) → DogHouse.dogs_of i ds = [].
Proof.
  intros H. unfold DogHouse.dogs_of.
  destruct (filter _ ds) as [|d ds'] eqn:E; [done|].
  assert (d ∈ filter (λ d, Dog.breed d = i) ds) as Hd by (rewrite E; by left).
  apply list_elem_of_filter in Hd as [? ?]. by destruct (H d).
Qed.

Lemma sums_agree_breed (self : DogHouse.t) (it : Item) :
  sums_agree self → sums_agree (DogHouse.add_breed_record self it).
Proof.
  unfold sums_agree, DogHouse.get_total_dogs, DogHouse.add_breed_record.
  cbn [DogHouse.breeds DogHouse.dogs]. intros ->.
  rewrite sum_list_with_app. cbn. lia.
Qed.

Lemma sums_agree_dog (self : DogHouse.t) (it : Item) :
  sums_agree self → sums_agree (DogHouse.add_dog_record self it).
Proof.
  unfold sums_agree, DogHouse.get_total_dogs, DogHouse.add_dog_record.
  destruct (DogHouse.find_breed _ _) as [[i b]|] eqn:Hf; [|done].
  apply find_breed_Some in Hf as (_ & Hi & _).
  cbn [DogHouse.breeds DogHouse.dogs]. intros Hs.
  set (dog := Dog.mk (item_id it) (item_name it) (Breed.id b)).
  pose proof (sum_list_with_insert Breed.dogs_count _ i b
    (Breed.add_dog b dog) Hi) as Hsum.
  assert (Breed.dogs_count (Breed.add_dog b dog) = S (Breed.dogs_count b)) as Hc.
  { unfold Breed.dogs_count, Breed.add_dog. cbn [Breed.dogs].
    rewrite length_app. cbn [length]. lia. }
  rewrite length_app. cbn [length]. lia.
Qed.

Lemma well_linked_breed (self : DogHouse.t) (it : Item) :
  well_linked self → well_linked (DogHouse.add_breed_record self it).
Proof.
  intros [Hd Hb]. split.
  - intros d Hin. destruct (Hd d Hin) as (b & Hbin & Heq).
    exists b. split; [|done]. cbn. apply elem_of_app. by left.
  - intros i b [Hi Hfirst]. cbn [DogHouse.add_breed_record DogHouse.breeds DogHouse.dogs] in *.
    apply lookup_app_Some in Hi as [Hi|[Hlen Hi]].
    + apply (Hb i b). split; [done|]. intros j b' Hj Hb'.
      apply (Hfirst j b' Hj). by apply lookup_app_l_Some.
    + apply list_lookup_singleton_Some in Hi as [Hi <-].
      cbn [Breed.new Breed.dogs Breed.id]. symmetry. apply dogs_of_nil.
      intros d Hin Heq. destruct (Hd d Hin) as (b' & Hbin & Hid).
      apply list_elem_of_lookup in Hbin as [j Hj].
      apply (Hfirst j b').
      * apply lookup_lt_Some in Hj. lia.
      * by apply lookup_app_l_Some.
      * cbn. congruence.
Qed.

Lemma well_linked_dog (self : DogHouse.t) (it : Item) :
  well_linked self → well_linked (DogHouse.add_dog_record self it).
Proof.
  intros [Hd Hb]. unfold DogHouse.add_dog_record.
  destruct (DogHouse.find_breed _ _) as [[i b]|] eqn:Hf; [|done].
  apply find_breed_Some in Hf as (_ & Hi & Hleast).
  set (dog := Dog.mk (item_id it) (item_name it) (Breed.id b)).
  assert (Hlen : i < length (DogHouse.breeds self)) by by eapply lookup_lt_Some.
  split.
  - intros d Hin. cbn [DogHouse.dogs DogHouse.breeds] in *.
    apply elem_of_app in Hin as [Hin|Hin%list_elem_of_singleton].
    + destruct (Hd d Hin) as (b' & Hbin & Heq).
      apply list_elem_of_lookup in Hbin as [j Hj].
      destruct (decide (j = i)) as [->|Hne].
      * exists (Breed.add_dog b dog). split.
        -- apply list_elem_of_lookup. exists i. by apply list_lookup_insert_eq.
        -- cbn. congruence.
      * exists b'. split; [|done]. apply list_elem_of_lookup. exists j.
        by rewrite list_lookup_insert_ne.
    + subst d. exists (Breed.add_dog b dog). split; [|done].
      apply list_elem_of_lookup. exists i. by apply list_lookup_insert_eq.
  - intros k bk [Hk Hfirst]. cbn [DogHouse.dogs DogHouse.breeds] in *.
    unfold DogHouse.dogs_of. rewrite filter_app, filter_cons, filter_nil.
    assert (Hold : ∀ j b', j < k → DogHouse.breeds self !! j = Some b' →
                           Breed.id b' ≠ Breed.id bk).
    { intros j b' Hj Hb'. destruct (decide (j = i)) as [->|Hne].
      - replace b' with b by congruence.
        apply (Hfirst i (Breed.add_dog b dog) Hj). by apply list_lookup_insert_eq.
      - apply (Hfirst j b' Hj). by rewrite list_lookup_insert_ne. }
    apply list_lookup_insert_Some in Hk as [(<- & <- & _)|[Hne Hk]].
    + cbn [Breed.add_dog Breed.dogs Breed.id]. rewrite decide_True by done.
      f_equal. apply (Hb i b). by split.
    + rewrite decide_False.
      * rewrite app_nil_r. apply (Hb k bk). by split.
      * cbn [dog Dog.breed]. intros Heq.
        destruct (Nat.lt_total k i) as [Hlt|[->|Hgt]]; [|done|].
        -- by apply (Hleast k bk).
        -- apply (Hold i b Hgt Hi). done.
Qed.

Lemma first_with_id_NoDup (bs : list Breed.t) (b : Breed.t) :
  NoDup (map Breed.id bs) → b ∈ bs → ∃ i, DogHouse.first_with_id bs i b.
Proof.
  intros Hnd [i Hi]%list_elem_of_lookup. exists i. split; [done|].
  intros j b' Hj Hb' Heq.
  assert (j = i); [|lia].
  eapply (NoDup_lookup _ j i (Breed.id b) Hnd).
  - change map with (@fmap list _). by rewrite list_lookup_fmap, Hb', <- Heq.
  - change map with (@fmap list _). by rewrite list_lookup_fmap, Hi.
Qed.

(** ** The pagination loops *)

Lemma truthy_None (url : option string) :
  truthy url = None ↔ url = None ∨ url = Some "".
Proof.
  destruct url as [u|]; simpl; [|naive_solver].
  destruct (String.eqb_spec u ""); naive_solver.
Qed.

Lemma truthy_append (s t : string) :
  t ≠ "" → truthy (Some (s +:+ t)) = Some (s +:+ t).
Proof.
  intros Ht. unfold truthy.
  destruct (String.eqb_spec (s +:+ t) "") as [Heq|]; [|done].
  destruct s; [done|discriminate].
Qed.

Lemma records_cons (u : string) (r : Response) (pages : list (string * Response)) :
  DogHouse.records ((u, r) :: pages) =
  default [] (results r) ++ DogHouse.records pages.
Proof. done. Qed.

Lemma fold_left_preserves {A B : Type} (P : A → Prop) (step : A → B → A)
    (items : list B) (a : A) :
  (∀ a b, P a → P (step a b)) → P a → P (fold_left step items a).
Proof.
  intros Hstep. revert a.
  induction items as [|it items IH]; intros a HP; [done|].
  cbn. apply IH. by apply Hstep.
Qed.

Section Loaders.
Context {W PostResp : Type}.
Variable BASE_URL : string.
Variable get : string → string → W → Response * W.

Abbreviation IO := (DogHouse.IO W PostResp).

Lemma breeds_loop_paginate fuel url token self (io : IO) :
  DogHouse.breeds_loop get fuel url token self io =
  DogHouse.paginate get DogHouse.add_breed_record fuel url token self io.
Proof.
  revert url self io. induction fuel as [|fuel IH]; intros url self io; [done|].
  simpl. destruct (truthy url); [|done].
  destruct (DogHouse.do_get get s token io). apply IH.
Qed.

Lemma dogs_loop_paginate fuel url token self (io : IO) :
  DogHouse.dogs_loop get fuel url token self io =
  DogHouse.paginate get DogHouse.add_dog_record fuel url token self io.
Proof.
  revert url self io. induction fuel as [|fuel IH]; intros url self io; [done|].
  simpl. destruct (truthy url); [|done].
  destruct (DogHouse.do_get get s token io). apply IH.
Qed.

(** Against a transport that delivers [pages], a loop with fuel for
    every page handles every record once, in order, asking once per
    page; with less fuel it is still running when the fuel ends. *)
Lemma paginate_run step token url pages w' :
  ∀ fuel self (io : IO),
    DogHouse.paged get token url (DogHouse.world io) pages w' →
    DogHouse.paginate get step fuel url token self io =
    if decide (length pages ≤ fuel)
    then Some (fold_left step (DogHouse.records pages) self,
               DogHouse.mkIO w' (DogHouse.sent io ++ requests_of token pages)
                 (DogHouse.stdout io))
    else None.
Proof.
  intros fuel self io Hp. remember (DogHouse.world io) as w eqn:Hw.
  revert fuel self io Hw.
  induction Hp as [url w Hurl|url u w r w1 pages w2 Hurl Hget Hp IH];
    intros fuel self io Hw.
  - rewrite decide_True by (cbn; lia).
    destruct fuel; cbn; rewrite Hurl; destruct io; subst; cbn;
      by rewrite app_nil_r.
  - destruct fuel as [|fuel].
    + rewrite decide_False by (cbn; lia). cbn. by rewrite Hurl.
    + cbn [DogHouse.paginate]. rewrite Hurl. unfold DogHouse.do_get.
      rewrite <- Hw, Hget. rewrite IH by done.
      cbn [length DogHouse.sent DogHouse.stdout].
      rewrite records_cons, fold_left_app. unfold requests_of. cbn [map fst].
      rewrite <- app_assoc. cbn [app].
      destruct (decide (length pages ≤ fuel));
        [rewrite decide_True by lia|rewrite decide_False by lia]; done.
Qed.

(** A loop that returns has followed some finite run of pages. *)
Lemma paginate_paged step token :
  ∀ fuel url self (io : IO) self' io',
    DogHouse.paginate get step fuel url token self io = Some (self', io') →
    ∃ pages, DogHouse.paged get token url (DogHouse.world io) pages
               (DogHouse.world io').
Proof.
  induction fuel as [|fuel IH]; intros url self io self' io'; cbn.
  - destruct (truthy url) eqn:Hurl; [done|]. intros [= <- <-].
    exists []. by constructor.
  - destruct (truthy url) as [u|] eqn:Hurl.
    + unfold DogHouse.do_get.
      destruct (get u token (DogHouse.world io)) as [r w1] eqn:Hget.
      intros Hrun. destruct (IH _ _ _ _ _ Hrun) as [pages Hp].
      exists ((u, r) :: pages). by econstructor.
    + intros [= <- <-]. exists []. by constructor.
Qed.

(** Whatever each record step preserves, a returning loop preserves. *)
Lemma paginate_preserves (P : DogHouse.t → Prop) step token :
  (∀ self it, P self → P (step self it)) →
  ∀ fuel url self (io : IO) self' io',
    P self →
    DogHouse.paginate get step fuel url token self io = Some (self', io') →
    P self'.
Proof.
  intros Hstep fuel url self io self' io' HP Hrun.
  destruct (paginate_paged _ _ _ _ _ _ _ _ Hrun) as [pages Hp].
  rewrite (paginate_run _ _ _ _ _ _ _ _ Hp) in Hrun.
  case_decide; [|done]. injection Hrun as <- _.
  by apply fold_left_preserves.
Qed.

(** The cursor of a page is false exactly on the last page of a run,
    and otherwise it is the url of the page that follows. *)
Lemma paged_cursors token url w pages w' :
  DogHouse.paged get token url w pages w' →
  (∀ i p, pages !! i = Some p →
          (truthy (next p.2) = None ↔ S i = length pages)) ∧
  (∀ i p q, pages !! i = Some p → pages !! S i = Some q →
            truthy (next p.2) = Some q.1) ∧
  (∀ p, pages !! 0 = Some p → truthy url = Some p.1).
Proof.
  induction 1 as [url w Hurl|url u w r w1 pages w2 Hurl Hget Hp (IH1 & IH2 & IH3)].
  - by split_and!.
  - split_and!.
    + intros [|i] p Hi; cbn in Hi.
      * injection Hi as <-. cbn [snd length]. inversion Hp; subst.
        -- done.
        -- split; [congruence|done].
      * rewrite (IH1 i p Hi). cbn [length]. lia.
    + intros [|i] p q Hi Hq; cbn in Hi, Hq.
      * injection Hi as <-. by apply IH3.
      * by apply (IH2 i).
    + by intros p [= <-].
Qed.

(** ** The loaders *)

(** C7, as the code has it.  Against a transport that delivers the
    finite run [pages], each loop asks once per page, in order, and
    stops at the first page whose cursor is false (null, absent or
    empty).  The breed loop appends one breed per record of every page;
    the dog loop handles every record once, in order, and appends the
    dogs whose breed id is among the loaded breeds. *)
Theorem pagination_loops token url pages w' fuel self (io : IO) :
  DogHouse.paged get token url (DogHouse.world io) pages w' →
  length pages ≤ fuel →
  let io' :=
    DogHouse.mkIO w' (DogHouse.sent io ++ map (λ p, GET p.1 token) pages)
      (DogHouse.stdout io) in
  (∀ i p, pages !! i = Some p →
          (truthy (next p.2) = None ↔ S i = length pages)) ∧
  (∃ hb,
      DogHouse.breeds_loop get fuel url token self io = Some (hb, io') ∧
      DogHouse.breeds hb =
        DogHouse.breeds self ++
          map (λ it, Breed.new (item_id it) (item_name it))
            (DogHouse.records pages) ∧
      DogHouse.dogs hb = DogHouse.dogs self) ∧
  (∃ hd,
      DogHouse.dogs_loop get fuel url token self io = Some (hd, io') ∧
      hd = fold_left DogHouse.add_dog_record (DogHouse.records pages) self ∧
      DogHouse.dogs hd =
        DogHouse.dogs self ++
          omap (DogHouse.resolve (DogHouse.breed_ids self))
            (DogHouse.records pages) ∧
      DogHouse.breed_ids hd = DogHouse.breed_ids self).
Proof.
  intros Hp Hfuel io'. split_and!.
  - by destruct (paged_cursors _ _ _ _ _ Hp) as (? & _).
  - eexists. rewrite breeds_loop_paginate, (paginate_run _ _ _ _ _ _ _ _ Hp).
    rewrite decide_True by done. split; [done|].
    by rewrite add_breed_records.
  - eexists. rewrite dogs_loop_paginate, (paginate_run _ _ _ _ _ _ _ _ Hp).
    rewrite decide_True by done. split_and!; [done..| |].
    + apply add_dog_records_dogs.
    + apply add_dog_records_ids.
Qed.

(** C2, as the code has it.  After [get_data] on a fresh house every
    dog has the id of a loaded breed, and the breed list mirrors the
    breed records delivered; if those carry pairwise distinct ids, no
    breed id repeats and every breed holds exactly the dogs of its id,
    in fetch order. *)
Theorem get_data_invariants fuel token (io : IO) h io' probe w1 pages w2 :
  get (DogHouse.breeds_url BASE_URL 1) token (DogHouse.world io) = (probe, w1) →
  DogHouse.paged get token
    (Some (DogHouse.breeds_url BASE_URL (Z.min 100 (default 0%Z (count probe)))))
    w1 pages w2 →
  DogHouse.get_data BASE_URL get fuel token DogHouse.new io = Some (h, io') →
  DogHouse.dogs_have_breed h ∧
  DogHouse.breed_ids h = map item_id (DogHouse.records pages) ∧
  (NoDup (map item_id (DogHouse.records pages)) →
   DogHouse.unique_breeds h ∧ DogHouse.breed_dogs_exact h).
Proof.
  intros Hget Hp. unfold DogHouse.get_data, DogHouse._get_breeds_data,
    DogHouse._get_dogs_data, DogHouse.do_get.
  rewrite Hget, breeds_loop_paginate.
  rewrite (paginate_run _ _ _ _ _ _ _ (DogHouse.mkIO w1 _ _) Hp).
  case_decide; [|done]. rewrite dogs_loop_paginate. intros Hrun.
  set (h1 := fold_left DogHouse.add_breed_record (DogHouse.records pages)
               DogHouse.new) in Hrun.
  assert (Hids : DogHouse.breed_ids h = map item_id (DogHouse.records pages)).
  { apply (paginate_preserves
             (λ x, DogHouse.breed_ids x = map item_id (DogHouse.records pages))
             _ _ (λ x it Hx, eq_trans (add_dog_record_ids x it) Hx)
             _ _ _ _ _ _) in Hrun; [done|].
    subst h1. rewrite add_breed_records. unfold DogHouse.breed_ids. cbn.
    rewrite map_map. by apply map_ext. }
  assert (Hlinked : well_linked h).
  { apply (paginate_preserves well_linked _ _ well_linked_dog
             _ _ _ _ _ _) in Hrun; [done|].
    subst h1. apply fold_left_preserves; [apply well_linked_breed|].
    split; [by intros d Hd%elem_of_nil|].
    by intros i b [Hi _]. }
  destruct Hlinked as [Hdogs Hfirst]. split_and!; [done..|].
  intros Hnd. rewrite <- Hids in Hnd. split; [done|].
  intros b Hb. destruct (first_with_id_NoDup _ b Hnd Hb) as [i Hi].
  by apply (Hfirst i).
Qed.

(** C5.  In every house the loaders can produce, the number of dogs is
    the sum of the dog counts of the breeds. *)
Theorem loaded_total_dogs (self : DogHouse.t) :
  DogHouse.loaded PostResp BASE_URL get self →
  DogHouse.get_total_dogs self =
  sum_list_with Breed.dogs_count (DogHouse.breeds self).
Proof.
  change (DogHouse.loaded PostResp BASE_URL get self → sums_agree self).
  induction 1 as [|fuel token self io self' io' _ IH Hrun
                  |fuel token self io self' io' _ IH Hrun].
  - done.
  - unfold DogHouse._get_breeds_data in Hrun.
    destruct (DogHouse.do_get _ _ _ _) as [r io1].
    rewrite breeds_loop_paginate in Hrun.
    by apply (paginate_preserves sums_agree _ _ sums_agree_breed
                _ _ _ _ _ _ IH) in Hrun.
  - unfold DogHouse._get_dogs_data in Hrun.
    rewrite dogs_loop_paginate in Hrun.
    by apply (paginate_preserves sums_agree _ _ sums_agree_dog
                _ _ _ _ _ _ IH) in Hrun.
Qed.

(** [get_data] is the two loaders in sequence, so its result is loaded. *)
Lemma loaded_get_data fuel token self (io : IO) self' io' :
  DogHouse.loaded PostResp BASE_URL get self →
  DogHouse.get_data BASE_URL get fuel token self io = Some (self', io') →
  DogHouse.loaded PostResp BASE_URL get self'.
Proof.
  intros Hl. unfold DogHouse.get_data.
  destruct (DogHouse._get_breeds_data _ _ _ _ _ _) as [[h1 io1]|] eqn:Hb; [|done].
  intros Hd. eapply DogHouse.loaded_dogs; [|exact Hd].
  eapply DogHouse.loaded_breeds; [exact Hl|exact Hb].
Qed.

(** With fuel for one iteration the breed loader asks the probe, then
    the first page with limit min(100, count), whether or not the loop
    ever ends. *)
Lemma _get_breeds_data_first_fetch fuel token self (io : IO) :
  let (probe, io1) := DogHouse.do_get get (DogHouse.breeds_url BASE_URL 1) token io in
  let limit_breeds := Z.min 100 (default 0%Z (count probe)) in
  let (r, io2) :=
    DogHouse.do_get get (DogHouse.breeds_url BASE_URL limit_breeds) token io1 in
  DogHouse.sent io2 =
    DogHouse.sent io ++
      [GET (DogHouse.breeds_url BASE_URL 1) token;
       GET (DogHouse.breeds_url BASE_URL limit_breeds) token] ∧
  DogHouse._get_breeds_data BASE_URL get (S fuel) token self io =
    DogHouse.breeds_loop get fuel (next r) token
      (fold_left DogHouse.add_breed_record (default [] (results r)) self) io2.
Proof.
  unfold DogHouse._get_breeds_data.
  destruct (DogHouse.do_get get (DogHouse.breeds_url BASE_URL 1) token io)
    as [probe io1] eqn:H1.
  cbn [DogHouse.breeds_loop]. unfold DogHouse.breeds_url at 2 4.
  rewrite truthy_append by done.
  fold (DogHouse.breeds_url BASE_URL (Z.min 100 (default 0%Z (count probe)))).
  destruct (DogHouse.do_get get _ token io1) as [r io2] eqn:H2.
  split; [|done]. unfold DogHouse.do_get in H1, H2.
  destruct (get _ _ (DogHouse.world io)). destruct (get _ _ (DogHouse.world io1)).
  injection H1 as _ <-. injection H2 as _ <-. cbn. by rewrite <- app_assoc.
Qed.

(** What a completed run of the breed loader has logged: the probe with
    limit 1 and then the first page with limit min(100, count), where
    count is the probe's [count] or 0 if it has none. *)
Theorem breeds_probe_then_limit fuel token self (io : IO) h io' :
  DogHouse._get_breeds_data BASE_URL get fuel token self io = Some (h, io') →
  let probe :=
    (get (BASE_URL +:+ "/api/v1/breeds/?limit=1") token (DogHouse.world io)).1 in
  let total_breeds := default 0%Z (count probe) in
  (∃ rest,
      DogHouse.sent io' =
      DogHouse.sent io ++
        GET (BASE_URL +:+ "/api/v1/breeds/?limit=1") token ::
        GET (BASE_URL +:+ "/api/v1/breeds/?limit=" +:+
               pretty (Z.min 100 total_breeds)) token :: rest) ∧
  (total_breeds = 0%Z →
   BASE_URL +:+ "/api/v1/breeds/?limit=" +:+ pretty (Z.min 100 total_breeds) =
   BASE_URL +:+ "/api/v1/breeds/?limit=0").
Proof.
  intros Hrun probe total_breeds. split; [|by intros ->].
  destruct fuel as [|fuel].
  { unfold DogHouse._get_breeds_data in Hrun.
    destruct (DogHouse.do_get _ _ _ _) as [r io1].
    cbn [DogHouse.breeds_loop] in Hrun.
    unfold DogHouse.breeds_url in Hrun. by rewrite truthy_append in Hrun. }
  pose proof (_get_breeds_data_first_fetch fuel token self io) as Hfirst.
  unfold DogHouse.do_get at 1 in Hfirst.
  change (DogHouse.breeds_url BASE_URL 1)
    with (BASE_URL +:+ "/api/v1/breeds/?limit=1") in Hfirst.
  subst total_breeds probe.
  destruct (get (BASE_URL +:+ "/api/v1/breeds/?limit=1") token (DogHouse.world io))
    as [probe w1].
  cbn [fst]. destruct (DogHouse.do_get _ _ _ _) as [r io2].
  destruct Hfirst as [Hsent Heq]. rewrite Heq, breeds_loop_paginate in Hrun.
  destruct (paginate_paged _ _ _ _ _ _ _ _ Hrun) as [pages Hp].
  rewrite (paginate_run _ _ _ _ _ _ _ _ Hp) in Hrun.
  case_decide; [|done]. injection Hrun as _ <-. cbn [DogHouse.sent].
  exists (requests_of token pages). rewrite Hsent, <- app_assoc. done.
Qed.
End Loaders.

(** C6.  A dog record either names no loaded breed, and then the house is
    left as it was (so neither the total nor any breed's count moves), or
    it names one, and then the new dog is appended to the dog list and to
    the dog list of the first breed with that id. *)
Theorem add_dog_record_drops_or_appends (self : DogHouse.t) (dog_data : Item) :
  let self' := DogHouse.add_dog_record self dog_data in
  ((∀ b, b ∈ DogHouse.breeds self → item_breed dog_data ≠ Some (Breed.id b)) ∧
   self' = self ∧
   DogHouse.get_total_dogs self' = DogHouse.get_total_dogs self ∧
   map Breed.dogs_count (DogHouse.breeds self') =
     map Breed.dogs_count (DogHouse.breeds self))
  ∨
  (∃ i b,
      item_breed dog_data = Some (Breed.id b) ∧
      DogHouse.first_with_id (DogHouse.breeds self) i b ∧
      let dog := Dog.mk (item_id dog_data) (item_name dog_data) (Breed.id b) in
      DogHouse.dogs self' = DogHouse.dogs self ++ [dog] ∧
      DogHouse.breeds self' =
        <[i := Breed.mk (Breed.id b) (Breed.name b) (Breed.dogs b ++ [dog])]>
          (DogHouse.breeds self) ∧
      DogHouse.get_total_dogs self' = S (DogHouse.get_total_dogs self)).
Proof.
  cbv zeta. unfold DogHouse.add_dog_record.
  destruct (DogHouse.find_breed self (item_breed dog_data)) as [[i b]|] eqn:Hf.
  - right. apply find_breed_Some in Hf as [Hid Hfirst].
    exists i, b. split_and!; [done..|].
    unfold DogHouse.get_total_dogs. cbn. rewrite length_app. cbn. lia.
  - left. split; [|done]. by apply find_breed_None.
Qed.

(** ** Submission *)

Section Submission.
Context {W PostResp : Type}.
Variable BASE_URL : string.
Variable post : string → dict → string → W → PostResp * W.

Abbreviation IO := (DogHouse.IO W PostResp).

(** C1 fails on the code: with no breeds, [send_data] stops with the
    [AttributeError] of reading [.name] on [None]; nothing is posted
    and no error of the domain is raised. *)
Theorem send_data_without_breeds (data : dict) (token : string)
    (ds : list Dog.t) (io : IO) :
  DogHouse.send_data BASE_URL post data token (DogHouse.mk [] ds) io =
  inl (AttributeError "'NoneType' object has no attribute 'name'").
Proof. reflexivity. Qed.

(** C10.  [send_data] does not depend on [data]; when it posts, the
    payload is rebuilt from the four getters and sent to the answer
    endpoint. *)
Theorem send_data_ignores_data (data1 data2 : dict) (token : string)
    (self : DogHouse.t) (io : IO) :
  DogHouse.send_data BASE_URL post data1 token self io =
  DogHouse.send_data BASE_URL post data2 token self io ∧
  ∀ io', DogHouse.send_data BASE_URL post data1 token self io = inr io' →
    ∃ b n,
      DogHouse.get_common_breed self = Some b ∧
      DogHouse.get_common_dog_name self = inr n ∧
      DogHouse.sent io' =
        DogHouse.sent io ++
          [POST (BASE_URL +:+ "/api/v1/answer/")
             [ ("totalBreeds", VInt (Z.of_nat (DogHouse.get_total_breeds self)));
               ("totalDogs", VInt (Z.of_nat (DogHouse.get_total_dogs self)));
               ("commonBreed", VStr (Breed.name b));
               ("commonDogName", VStr n) ]
             token].
Proof.
  split; [reflexivity|]. unfold DogHouse.send_data. intros io'.
  destruct (DogHouse.get_common_breed self) as [b|]; [|done].
  destruct (DogHouse.get_common_dog_name self) as [e|n]; [done|].
  unfold DogHouse.do_post. destruct (post _ _ _ _) as [r w].
  intros [= <-]. by exists b, n.
Qed.
End Submission.

(** ** The theorems at work on concrete sessions *)

Lemma three_pages_paged :
  DogHouse.paged script_get "token" (Some "page1") three_pages three_pages_at [].
Proof.
  repeat (eapply DogHouse.paged_page; [reflexivity|reflexivity|]).
  by apply DogHouse.paged_end.
Defined.

(** Three pages of 100, 100 and 37 records: three requests, 237 breeds
    appended by the breed loop, and 237 dogs by the dog loop when breed 1
    is loaded. *)
Lemma pagination_loops_witness :
  ∃ hb hd io',
    DogHouse.breeds_loop script_get 3 (Some "page1") "token"
      house_breeds_only (io0 three_pages) = Some (hb, io') ∧
    DogHouse.dogs_loop script_get 3 (Some "page1") "token"
      house_breeds_only (io0 three_pages) = Some (hd, io') ∧
    length (DogHouse.sent io') = 3 ∧
    length (DogHouse.breeds hb) = 3 + 237 ∧
    length (DogHouse.dogs hd) = 237.
Proof.
  destruct (pagination_loops (PostResp := unit) script_get "token" (Some "page1")
              three_pages_at [] 3 house_breeds_only (io0 three_pages)
              three_pages_paged (le_n 3))
    as (_ & (hb & Hb & Hbreeds & _) & (hd & Hd & _ & Hdogs & _)).
  exists hb, hd. eexists. split_and!; [exact Hb|exact Hd|reflexivity|..].
  - rewrite Hbreeds. reflexivity.
  - rewrite Hdogs. reflexivity.
Defined.

Lemma dog_pages_paged :
  DogHouse.paged script_get "token" (Some "/api/v1/dogs/") (drop 3 session)
    dog_pages [].
Proof.
  repeat (eapply DogHouse.paged_page; [reflexivity|reflexivity|]).
  by apply DogHouse.paged_end.
Qed.

(** C7 fails as stated: the two dog pages of [session] carry five
    records, and the dog loop, having handled them all, has appended
    three dogs. *)
Lemma dogs_loop_drops_records :
  DogHouse.paged script_get "token" (Some "/api/v1/dogs/") (drop 3 session)
    dog_pages [] ∧
  length (DogHouse.records dog_pages) = 5 ∧
  DogHouse.dogs_loop script_get 2 (Some "/api/v1/dogs/") "token"
    house_breeds_only (io0 (drop 3 session)) =
  Some (house_session,
        DogHouse.mkIO [] [GET "/api/v1/dogs/" "token"; GET "dogs?page=2" "token"] []) ∧
  DogHouse.get_total_dogs house_breeds_only = 0 ∧
  DogHouse.get_total_dogs house_session = 3.
Proof. split; [apply dog_pages_paged|]. by repeat split. Qed.

Lemma breed_pages_paged :
  DogHouse.paged script_get "token" (Some "/api/v1/breeds/?limit=3")
    (drop 1 session) breed_pages (drop 3 session).
Proof.
  repeat (eapply DogHouse.paged_page; [reflexivity|reflexivity|]).
  by apply DogHouse.paged_end.
Qed.

Lemma breed_pages_NoDup : NoDup (map item_id (DogHouse.records breed_pages)).
Proof. apply (bool_decide_unpack _). by vm_compute. Qed.

Lemma house_twice_not_unique : ¬ DogHouse.unique_breeds house_twice.
Proof. intros [Hin _]%NoDup_cons. apply Hin. by left. Qed.

Lemma house_twice_not_exact : ¬ DogHouse.breed_dogs_exact house_twice.
Proof.
  intros H. specialize (H (Breed.mk 1 "A" [])).
  discriminate H. right. by left.
Qed.

(** On [session] the breed ids 1, 2, 3 are distinct and the loaded house
    satisfies the three invariants. *)
Lemma get_data_invariants_witness :
  DogHouse.get_data "" script_get 2 "token" DogHouse.new (io0 session) =
    Some (house_session, DogHouse.mkIO [] session_requests []) ∧
  NoDup (map item_id (DogHouse.records breed_pages)) ∧
  DogHouse.dogs_have_breed house_session ∧
  DogHouse.unique_breeds house_session ∧
  DogHouse.breed_dogs_exact house_session.
Proof.
  assert (Hrun : DogHouse.get_data "" script_get 2 "token" DogHouse.new
                   (io0 session) =
                 Some (house_session, DogHouse.mkIO [] session_requests []))
    by reflexivity.
  destruct (get_data_invariants "" script_get 2 "token" (io0 session)
              house_session _ _ _ breed_pages _
              eq_refl breed_pages_paged Hrun) as (Hdogs & _ & Hrest).
  destruct (Hrest breed_pages_NoDup) as [Hunique Hexact].
  split_and!; [exact Hrun|exact breed_pages_NoDup|done..].
Defined.

(** C2 fails as stated: nothing in the loader removes a repeated breed
    id.  When the API lists breed 1 twice, the loaded house holds it
    twice, and the second copy has no dogs although a dog of breed 1 was
    loaded. *)
Lemma get_data_repeated_breed_id :
  DogHouse.get_data "" script_get 1 "token" DogHouse.new (io0 session_twice) =
    Some (house_twice,
          DogHouse.mkIO []
            [ GET "/api/v1/breeds/?limit=1" "token";
              GET "/api/v1/breeds/?limit=2" "token";
              GET "/api/v1/dogs/" "token" ] []) ∧
  ¬ DogHouse.unique_breeds house_twice ∧
  ¬ DogHouse.breed_dogs_exact house_twice.
Proof.
  split; [reflexivity|].
  split; [apply house_twice_not_unique|apply house_twice_not_exact].
Qed.

(** The house loaded from [session]: three dogs, two of breed A and one
    of breed B. *)
Lemma loaded_total_dogs_witness :
  DogHouse.loaded unit "" script_get house_session ∧
  DogHouse.get_total_dogs house_session = 3 ∧
  DogHouse.get_total_dogs house_session =
    sum_list_with Breed.dogs_count (DogHouse.breeds house_session).
Proof.
  assert (Hl : DogHouse.loaded unit "" script_get house_session).
  { eapply (loaded_get_data "" script_get 2 "token" DogHouse.new (io0 session));
      [apply DogHouse.loaded_new|reflexivity]. }
  split; [exact Hl|]. split; [reflexivity|].
  exact (loaded_total_dogs "" script_get house_session Hl).
Defined.

(** The log of the breed phase of [session]. *)
Lemma breeds_probe_then_limit_witness :
  DogHouse._get_breeds_data "" script_get 2 "token" DogHouse.new (io0 session) =
    Some (house_breeds_only, DogHouse.mkIO (drop 3 session) breed_requests []) ∧
  ∃ rest,
    breed_requests =
    [] ++ GET "/api/v1/breeds/?limit=1" "token" ::
          GET "/api/v1/breeds/?limit=3" "token" :: rest.
Proof.
  assert (Hrun : DogHouse._get_breeds_data "" script_get 2 "token" DogHouse.new
                   (io0 session) =
                 Some (house_breeds_only,
                       DogHouse.mkIO (drop 3 session) breed_requests []))
    by reflexivity.
  split; [exact Hrun|].
  exact (proj1 (breeds_probe_then_limit "" script_get 2 "token" DogHouse.new
                  (io0 session) _ _ Hrun)).
Defined.

(** A probe that reports no breeds, or no count at all, is followed by a
    request with limit 0, and whatever that returns is loaded. *)
Example breeds_limit_zero :
  DogHouse._get_breeds_data "" script_get 1 "token" DogHouse.new
    (io0 [mkResponse (Some 0%Z) None None; mkResponse None (Some []) None]) =
  Some (DogHouse.new,
        DogHouse.mkIO []
          [ GET "/api/v1/breeds/?limit=1" "token";
            GET "/api/v1/breeds/?limit=0" "token" ] []) ∧
  DogHouse._get_breeds_data "" script_get 1 "token" DogHouse.new
    (io0 [mkResponse None None None; mkResponse None (Some [mkItem 7 "G" None]) None]) =
  Some (DogHouse.mk [Breed.new 7 "G"] [],
        DogHouse.mkIO []
          [ GET "/api/v1/breeds/?limit=1" "token";
            GET "/api/v1/breeds/?limit=0" "token" ] []).
Proof. by split. Qed.

(** An empty cursor ends a loop like a missing one. *)
Example breeds_loop_empty_cursor :
  DogHouse.breeds_loop script_get 5 (Some "page1") "token" DogHouse.new
    (io0 [mkResponse None (Some [mkItem 1 "A" None]) (Some "");
          mkResponse None (Some [mkItem 2 "B" None]) None]) =
  Some (DogHouse.mk [Breed.new 1 "A"] [],
        DogHouse.mkIO [mkResponse None (Some [mkItem 2 "B" None]) None]
          [GET "page1" "token"] []).
Proof. reflexivity. Qed.

(** A transport whose cursor never ends keeps the loop running: no
    amount of fuel makes it return. *)
Lemma breeds_loop_endless (fuel : nat) (self : DogHouse.t)
    (io : DogHouse.IO unit unit) :
  DogHouse.breeds_loop
    (λ _ _ w, (mkResponse None None (Some "again"), w))
    fuel (Some "again") "token" self io = None.
Proof.
  revert self io. induction fuel as [|fuel IH]; intros self io; [done|].
  cbn. apply IH.
Qed.

(** The two outcomes of C6 on the records of [session]. *)
Example add_dog_record_unknown_breed :
  DogHouse.add_dog_record house_breeds_only (mkItem 13 "Stray" (Some 9%Z)) =
    house_breeds_only ∧
  DogHouse.add_dog_record house_breeds_only (mkItem 14 "Ghost" None) =
    house_breeds_only.
Proof. by split. Qed.

Example add_dog_record_known_breed :
  DogHouse.add_dog_record house_breeds_only (mkItem 11 "Fido" (Some 2%Z)) =
  DogHouse.mk
    [Breed.new 1 "A"; Breed.mk 2 "B" [Dog.mk 11 "Fido" 2]; Breed.new 3 "C"]
    [Dog.mk 11 "Fido" 2].
Proof. reflexivity. Qed.

(** [send_data] on the A, B, C house posts the same payload whatever it
    is handed. *)
Lemma send_data_ignores_data_witness :
  DogHouse.send_data "" script_post [] "token" house_ABC (io0 []) =
  DogHouse.send_data "" script_post [("total_dogs", VInt 0)] "token" house_ABC
    (io0 []) ∧
  DogHouse.send_data "" script_post [] "token" house_ABC (io0 []) =
  inr (DogHouse.mkIO []
         [POST "/api/v1/answer/"
            [ ("totalBreeds", VInt 3); ("totalDogs", VInt 5);
              ("commonBreed", VStr "A"); ("commonDogName", VStr "Rex") ]
            "token"]
         [tt]).
Proof.
  split; [|reflexivity].
  exact (proj1 (send_data_ignores_data "" script_post [] [("total_dogs", VInt 0)]
                  "token" house_ABC (io0 []))).
Defined.

(** * Further properties of the module *)

(** ** class Breed *)

(** X1.  [add_dog] only appends: after any number of calls a breed has
    its old dogs followed by the added dogs in call order, its count has
    grown by the number of calls, and its id and name are as before. *)
Theorem breed_add_dogs (b : Breed.t) (ds : list Dog.t) :
  let b' := fold_left Breed.add_dog ds b in
  Breed.dogs b' = Breed.dogs b ++ ds ∧
  Breed.dogs_count b' = Breed.dogs_count b + length ds ∧
  Breed.id b' = Breed.id b ∧
  Breed.name b' = Breed.name b.
Proof.
  cbv zeta. revert b. induction ds as [|d ds IH]; intros b.
  - unfold Breed.dogs_count. rewrite app_nil_r. cbn. by rewrite Nat.add_0_r.
  - cbn [fold_left]. destruct (IH (Breed.add_dog b d)) as (Hd & Hc & Hi & Hn).
    rewrite Hd, Hc, Hi, Hn. unfold Breed.dogs_count, Breed.add_dog.
    cbn [Breed.dogs Breed.id Breed.name length].
    rewrite <- app_assoc, length_app. cbn [length app]. split_and!; [done|lia|done..].
Qed.

(** ** The statistics never fail on their own *)

Lemma py_max_ge {A : Type} (key : A → nat) (x : A) (xs : list A) (y : A) :
  y ∈ x :: xs → key y ≤ key (py_max key x xs).
Proof.
  destruct (py_max_split key x xs) as (l1 & l2 & -> & Hlt & Hle).
  rewrite Forall_forall in Hlt, Hle.
  intros [Hy|[->|Hy]%elem_of_cons]%elem_of_app.
  - specialize (Hlt y Hy). simpl in Hlt. lia.
  - done.
  - by apply Hle.
Qed.

Lemma py_max_elem_of {A : Type} (key : A → nat) (x : A) (xs : list A) :
  py_max key x xs ∈ x :: xs.
Proof.
  destruct (py_max_split key x xs) as (l1 & l2 & Heq & _).
  rewrite Heq. apply elem_of_app. right. by left.
Qed.

Lemma most_common_1_Counter (names : list string) :
  names ≠ [] →
  ∃ n c, most_common_1 (Counter names) = [(n, c)] ∧ n ∈ names.
Proof.
  intros Hne. rewrite Counter_spec.
  destruct (first_seen names) as [|k0 ks] eqn:Hfs.
  { destruct names as [|x names]; [done|].
    assert (x ∈ first_seen (x :: names)) as Hin
      by (apply first_seen_elem_of; by left).
    rewrite Hfs in Hin. by apply elem_of_nil in Hin. }
  cbn [map most_common_1].
  set (f := λ k, (k, occurrences k names)).
  change (k0, occurrences k0 names) with (f k0).
  pose proof (py_max_elem_of snd (f k0) (map f ks)) as Hin.
  destruct (py_max snd (f k0) (map f ks)) as [n c].
  exists n, c. split; [done|].
  change (f k0 :: map f ks) with (f <$> (k0 :: ks)) in Hin.
  apply list_elem_of_fmap in Hin as (k & [= -> _] & Hk).
  apply first_seen_elem_of. by rewrite Hfs.
Qed.

Lemma get_common_dog_name_inr (self : DogHouse.t) :
  ∃ n, DogHouse.get_common_dog_name self = inr n.
Proof.
  unfold DogHouse.get_common_dog_name.
  destruct (DogHouse.dogs self) as [|d ds] eqn:Hd; [by eexists|].
  destruct (most_common_1_Counter (map Dog.name (d :: ds))) as (n & c & -> & _);
    [done|by eexists].
Qed.

(** X5.  [get_common_dog_name] never raises: the index into
    [most_common(1)] is always in range.  With dogs it returns the name
    of one of them, without dogs the empty string. *)
Theorem get_common_dog_name_is_a_dog_name (self : DogHouse.t) :
  ∃ n,
    DogHouse.get_common_dog_name self = inr n ∧
    match DogHouse.dogs self with
    | [] => n = ""
    | _ :: _ => ∃ d, d ∈ DogHouse.dogs self ∧ Dog.name d = n
    end.
Proof.
  unfold DogHouse.get_common_dog_name.
  destruct (DogHouse.dogs self) as [|d ds] eqn:Hd; [by eexists|].
  destruct (most_common_1_Counter (map Dog.name (d :: ds)))
    as (n & c & -> & Hin); [done|].
  exists n. split; [done|].
  change map with (@fmap list _) in Hin.
  apply list_elem_of_fmap in Hin as (d' & -> & Hd'). by exists d'.
Qed.

Lemma get_common_breed_Some (self : DogHouse.t) :
  DogHouse.breeds self ≠ [] →
  ∃ b, DogHouse.get_common_breed self = Some b ∧ b ∈ DogHouse.breeds self ∧
       ∀ b', b' ∈ DogHouse.breeds self →
             Breed.dogs_count b' ≤ Breed.dogs_count b.
Proof.
  unfold DogHouse.get_common_breed.
  destruct (DogHouse.breeds self) as [|b0 bs]; [done|intros _].
  eexists. split; [done|]. split; [apply py_max_elem_of|].
  intros b'. apply py_max_ge.
Qed.

Section Outcome.
Context {W PostResp : Type}.
Variable BASE_URL : string.
Variable post : string → dict → string → W → PostResp * W.

Abbreviation IO := (DogHouse.IO W PostResp).

Lemma send_data_with_breed data token self (io : IO) b n :
  DogHouse.get_common_breed self = Some b →
  DogHouse.get_common_dog_name self = inr n →
  DogHouse.send_data BASE_URL post data token self io =
  let payload :=
    answer (DogHouse.get_total_breeds self) (DogHouse.get_total_dogs self)
      (Breed.name b) n in
  let (r, w) := post (BASE_URL +:+ "/api/v1/answer/") payload token
                  (DogHouse.world io) in
  inr (DogHouse.mkIO w
         (DogHouse.sent io ++ [POST (BASE_URL +:+ "/api/v1/answer/") payload token])
         (DogHouse.stdout io ++ [r])).
Proof.
  intros Hb Hn. unfold DogHouse.send_data, DogHouse.do_post, DogHouse.answer_url.
  rewrite Hb, Hn. cbv zeta. unfold answer.
  by destruct (post _ _ _ _).
Qed.

(** X6.  [send_data] raises exactly when the house has no breeds.
    Otherwise it makes one request, the POST of the four statistics to
    the answer endpoint with the caller's token, and prints the response:
    the common breed posted is a breed of the house with the largest dog
    count. *)
Theorem send_data_outcome (data : dict) (token : string) (self : DogHouse.t)
    (io : IO) :
  ((∃ e, DogHouse.send_data BASE_URL post data token self io = inl e) ↔
   DogHouse.breeds self = []) ∧
  (DogHouse.breeds self ≠ [] →
   ∃ b n r w,
     b ∈ DogHouse.breeds self ∧
     (∀ b', b' ∈ DogHouse.breeds self →
            Breed.dogs_count b' ≤ Breed.dogs_count b) ∧
     DogHouse.get_common_dog_name self = inr n ∧
     post (BASE_URL +:+ "/api/v1/answer/")
       (answer (DogHouse.get_total_breeds self) (DogHouse.get_total_dogs self)
          (Breed.name b) n) token (DogHouse.world io) = (r, w) ∧
     DogHouse.send_data BASE_URL post data token self io =
     inr (DogHouse.mkIO w
            (DogHouse.sent io ++
               [POST (BASE_URL +:+ "/api/v1/answer/")
                  (answer (DogHouse.get_total_breeds self)
                     (DogHouse.get_total_dogs self) (Breed.name b) n) token])
            (DogHouse.stdout io ++ [r]))).
Proof.
  assert (Hpost : DogHouse.breeds self ≠ [] →
    ∃ b n r w,
      b ∈ DogHouse.breeds self ∧
      (∀ b', b' ∈ DogHouse.breeds self →
             Breed.dogs_count b' ≤ Breed.dogs_count b) ∧
      DogHouse.get_common_dog_name self = inr n ∧
      post (BASE_URL +:+ "/api/v1/answer/")
        (answer (DogHouse.get_total_breeds self) (DogHouse.get_total_dogs self)
           (Breed.name b) n) token (DogHouse.world io) = (r, w) ∧
      DogHouse.send_data BASE_URL post data token self io =
      inr (DogHouse.mkIO w
             (DogHouse.sent io ++
                [POST (BASE_URL +:+ "/api/v1/answer/")
                   (answer (DogHouse.get_total_breeds self)
                      (DogHouse.get_total_dogs self) (Breed.name b) n) token])
             (DogHouse.stdout io ++ [r]))).
  { intros Hne. destruct (get_common_breed_Some self Hne) as (b & Hb & Hin & Hmax).
    destruct (get_common_dog_name_inr self) as [n Hn].
    rewrite (send_data_with_breed data token self io b n Hb Hn). cbv zeta.
    destruct (post _ _ _ _) as [r w] eqn:Hp.
    by exists b, n, r, w. }
  split; [|exact Hpost]. split.
  - intros [e He]. destruct (DogHouse.breeds self) as [|b0 bs] eqn:Hbs; [done|].
    destruct Hpost as (b & n & r & w & _ & _ & _ & _ & Hs); [done|].
    rewrite Hs in He. done.
  - intros Hbs. unfold DogHouse.send_data, DogHouse.get_common_breed.
    rewrite Hbs. by eexists.
Qed.
End Outcome.

(** ** Appends only *)

Lemma same_breed_grown_refl (b : Breed.t) : same_breed_grown b b.
Proof. by split_and!. Qed.

Lemma same_breed_grown_trans (a b c : Breed.t) :
  same_breed_grown a b → same_breed_grown b c → same_breed_grown a c.
Proof.
  intros (? & ? & ?) (? & ? & ?). split_and!; [congruence..|by etrans].
Qed.

Lemma grows_refl (self : DogHouse.t) : grows self self.
Proof.
  split; [done|]. exists (DogHouse.breeds self), []. split; [by rewrite app_nil_r|].
  apply Forall_Forall2_diag, Forall_forall. intros b _. apply same_breed_grown_refl.
Qed.

Lemma grows_trans (a b c : DogHouse.t) : grows a b → grows b c → grows a c.
Proof.
  intros [Hd1 (o1 & n1 & Hb1 & Hf1)] [Hd2 (o2 & n2 & Hb2 & Hf2)].
  split; [by etrans|]. rewrite Hb1 in Hf2.
  apply Forall2_app_inv_l in Hf2 as (k1 & k2 & Hk1 & _ & ->).
  exists k1, (k2 ++ n2). split; [by rewrite Hb2, <- app_assoc|].
  eapply Forall2_trans; [|exact Hf1|exact Hk1]. apply same_breed_grown_trans.
Qed.

Lemma grows_add_breed_record (self : DogHouse.t) (it : Item) :
  grows self (DogHouse.add_breed_record self it).
Proof.
  split; [done|]. eexists (DogHouse.breeds self), _. split; [done|].
  apply Forall_Forall2_diag, Forall_forall. intros b _. apply same_breed_grown_refl.
Qed.

Lemma grows_add_dog_record (self : DogHouse.t) (it : Item) :
  grows self (DogHouse.add_dog_record self it).
Proof.
  unfold DogHouse.add_dog_record.
  destruct (DogHouse.find_breed _ _) as [[i b]|] eqn:Hf; [|apply grows_refl].
  apply find_breed_Some in Hf as (_ & Hi & _).
  split; [by apply prefix_app_r|]. cbn [DogHouse.breeds].
  eexists _, []. split; [by rewrite app_nil_r|].
  rewrite <- (list_insert_id (DogHouse.breeds self) i b Hi) at 1.
  apply Forall2_insert.
  - apply Forall_Forall2_diag, Forall_forall. intros b' _.
    apply same_breed_grown_refl.
  - split_and!; [done..|]. by apply prefix_app_r.
Qed.

(** ** Breeds that share an id *)

Lemma shadowed_empty_breed (self : DogHouse.t) (it : Item) :
  shadowed_breeds_empty self →
  shadowed_breeds_empty (DogHouse.add_breed_record self it).
Proof.
  intros Hs i b [Hi (j & b' & Hj & Hb' & Hid)].
  cbn [DogHouse.add_breed_record DogHouse.breeds] in *.
  apply lookup_app_Some in Hi as [Hi|[_ Hi]].
  - apply (Hs i b). split; [done|]. exists j, b'. split_and!; [done| |done].
    apply lookup_lt_Some in Hi.
    rewrite lookup_app_l in Hb' by lia. done.
  - by apply list_lookup_singleton_Some in Hi as [_ <-].
Qed.

Lemma shadowed_empty_dog (self : DogHouse.t) (it : Item) :
  shadowed_breeds_empty self →
  shadowed_breeds_empty (DogHouse.add_dog_record self it).
Proof.
  intros Hs. unfold DogHouse.add_dog_record.
  destruct (DogHouse.find_breed _ _) as [[k bk]|] eqn:Hf; [|done].
  apply find_breed_Some in Hf as (_ & Hk & Hleast).
  set (dog := Dog.mk (item_id it) (item_name it) (Breed.id bk)).
  intros i b [Hi (j & b' & Hj & Hb' & Hid)]. cbn [DogHouse.breeds] in *.
  apply list_lookup_insert_Some in Hi as [(<- & <- & _)|[Hne Hi]].
  - exfalso. rewrite list_lookup_insert_ne in Hb' by lia.
    by apply (Hleast j b').
  - apply (Hs i b). split; [done|].
    apply list_lookup_insert_Some in Hb' as [(<- & <- & _)|[_ Hb']].
    + by exists k, bk.
    + by exists j, b'.
Qed.

Section MoreLoaders.
Context {W PostResp : Type}.
Variable BASE_URL : string.
Variable get : string → string → W → Response * W.

Abbreviation IO := (DogHouse.IO W PostResp).

(** What both record steps keep, every loaded house has. *)
Lemma loaded_preserves (P : DogHouse.t → Prop) :
  P DogHouse.new →
  (∀ h it, P h → P (DogHouse.add_breed_record h it)) →
  (∀ h it, P h → P (DogHouse.add_dog_record h it)) →
  ∀ self, DogHouse.loaded PostResp BASE_URL get self → P self.
Proof.
  intros Hnew Hbreed Hdog self.
  induction 1 as [|fuel token self io self' io' _ IH Hrun
                  |fuel token self io self' io' _ IH Hrun]; [done|..].
  - unfold DogHouse._get_breeds_data in Hrun.
    destruct (DogHouse.do_get _ _ _ _) as [r io1].
    rewrite breeds_loop_paginate in Hrun.
    by apply (paginate_preserves get P _ _ Hbreed _ _ _ _ _ _ IH) in Hrun.
  - unfold DogHouse._get_dogs_data in Hrun. rewrite dogs_loop_paginate in Hrun.
    by apply (paginate_preserves get P _ _ Hdog _ _ _ _ _ _ IH) in Hrun.
Qed.

(** A run that starts at a url of the API has at least its first page. *)
Lemma paged_start token (s t : string) w pages w' :
  t ≠ "" →
  DogHouse.paged get token (Some (s +:+ t)) w pages w' →
  ∃ r pages', pages = (s +:+ t, r) :: pages'.
Proof.
  intros Ht Hp. pose proof (truthy_append s t Ht) as Hu.
  inversion Hp as [? ? Hurl|? u ? r ? pages' ? Hurl]; subst;
    rewrite Hu in Hurl; [done|].
  injection Hurl as <-. by eexists _, _.
Qed.

Lemma _get_breeds_data_paged fuel token self (io : IO) probe w1 pages w2 :
  get (DogHouse.breeds_url BASE_URL 1) token (DogHouse.world io) = (probe, w1) →
  DogHouse.paged get token
    (Some (DogHouse.breeds_url BASE_URL (Z.min 100 (default 0%Z (count probe)))))
    w1 pages w2 →
  DogHouse._get_breeds_data BASE_URL get fuel token self io =
  if decide (length pages ≤ fuel)
  then Some (fold_left DogHouse.add_breed_record (DogHouse.records pages) self,
             DogHouse.mkIO w2
               (DogHouse.sent io ++
                  GET (DogHouse.breeds_url BASE_URL 1) token ::
                  requests_of token pages)
               (DogHouse.stdout io))
  else None.
Proof.
  intros Hget Hp. unfold DogHouse._get_breeds_data, DogHouse.do_get.
  rewrite Hget, breeds_loop_paginate.
  rewrite (paginate_run _ _ _ _ _ _ _ _ (DogHouse.mkIO w1 _ _) Hp).
  cbn [DogHouse.sent DogHouse.stdout]. by rewrite <- app_assoc.
Qed.

Lemma _get_dogs_data_paged fuel token self (io : IO) pages w' :
  DogHouse.paged get token (Some (DogHouse.dogs_url BASE_URL))
    (DogHouse.world io) pages w' →
  DogHouse._get_dogs_data BASE_URL get fuel token self io =
  if decide (length pages ≤ fuel)
  then Some (fold_left DogHouse.add_dog_record (DogHouse.records pages) self,
             DogHouse.mkIO w' (DogHouse.sent io ++ requests_of token pages)
               (DogHouse.stdout io))
  else None.
Proof.
  intros Hp. unfold DogHouse._get_dogs_data. rewrite dogs_loop_paginate.
  by rewrite (paginate_run _ _ _ _ _ _ _ _ _ Hp).
Qed.

(** A loader that returns has followed a finite run of pages. *)
Lemma _get_breeds_data_Some fuel token self (io : IO) h io' :
  DogHouse._get_breeds_data BASE_URL get fuel token self io = Some (h, io') →
  ∃ probe w1 pages,
    get (DogHouse.breeds_url BASE_URL 1) token (DogHouse.world io) = (probe, w1) ∧
    DogHouse.paged get token
      (Some (DogHouse.breeds_url BASE_URL (Z.min 100 (default 0%Z (count probe)))))
      w1 pages (DogHouse.world io') ∧
    length pages ≤ fuel.
Proof.
  intros Hrun.
  destruct (get (DogHouse.breeds_url BASE_URL 1) token (DogHouse.world io))
    as [probe w1] eqn:Hget.
  pose proof Hrun as Hrun'.
  unfold DogHouse._get_breeds_data, DogHouse.do_get in Hrun'.
  rewrite Hget, breeds_loop_paginate in Hrun'.
  destruct (paginate_paged _ _ _ _ _ _ _ _ _ Hrun') as [pages Hp].
  cbn [DogHouse.world] in Hp.
  exists probe, w1, pages. split_and!; [done..|].
  rewrite (_get_breeds_data_paged fuel token self io probe w1 pages _ Hget Hp) in Hrun.
  by case_decide.
Qed.

Lemma _get_dogs_data_Some fuel token self (io : IO) h io' :
  DogHouse._get_dogs_data BASE_URL get fuel token self io = Some (h, io') →
  ∃ pages,
    DogHouse.paged get token (Some (DogHouse.dogs_url BASE_URL))
      (DogHouse.world io) pages (DogHouse.world io') ∧
    length pages ≤ fuel.
Proof.
  intros Hrun. pose proof Hrun as Hrun'.
  unfold DogHouse._get_dogs_data in Hrun'. rewrite dogs_loop_paginate in Hrun'.
  destruct (paginate_paged _ _ _ _ _ _ _ _ _ Hrun') as [pages Hp].
  exists pages. split; [done|].
  rewrite (_get_dogs_data_paged fuel token self io pages _ Hp) in Hrun. by case_decide.
Qed.
End MoreLoaders.

Lemma resolve_no_breeds (items : list Item) :
  omap (DogHouse.resolve []) items = [].
Proof.
  induction items as [|it items IH]; [done|]. cbn [omap list_omap].
  unfold DogHouse.resolve at 1. destruct (item_breed it); [|done].
  rewrite decide_False by apply not_elem_of_nil. done.
Qed.

Lemma add_breed_records_ids (items : list Item) (self : DogHouse.t) :
  DogHouse.breed_ids (fold_left DogHouse.add_breed_record items self) =
  DogHouse.breed_ids self ++ map item_id items.
Proof.
  rewrite add_breed_records. unfold DogHouse.breed_ids. cbn [DogHouse.breeds].
  rewrite map_app, map_map. done.
Qed.

Section LoaderProperties.
Context {W PostResp : Type}.
Variable BASE_URL : string.
Variable get : string → string → W → Response * W.

Abbreviation IO := (DogHouse.IO W PostResp).

Lemma get_data_paged fuel token self (io : IO) probe w1 bpages w2 dpages w3 :
  get (DogHouse.breeds_url BASE_URL 1) token (DogHouse.world io) = (probe, w1) →
  DogHouse.paged get token
    (Some (DogHouse.breeds_url BASE_URL (Z.min 100 (default 0%Z (count probe)))))
    w1 bpages w2 →
  DogHouse.paged get token (Some (DogHouse.dogs_url BASE_URL)) w2 dpages w3 →
  length bpages ≤ fuel → length dpages ≤ fuel →
  DogHouse.get_data BASE_URL get fuel token self io =
  Some (fold_left DogHouse.add_dog_record (DogHouse.records dpages)
          (fold_left DogHouse.add_breed_record (DogHouse.records bpages) self),
        DogHouse.mkIO w3
          (DogHouse.sent io ++
             GET (DogHouse.breeds_url BASE_URL 1) token ::
             requests_of token bpages ++ requests_of token dpages)
          (DogHouse.stdout io)).
Proof.
  intros Hget Hb Hd Hfb Hfd. unfold DogHouse.get_data.
  rewrite (_get_breeds_data_paged BASE_URL get fuel token self io _ _ _ _ Hget Hb).
  rewrite decide_True by done.
  rewrite (_get_dogs_data_paged BASE_URL get fuel token _
             (DogHouse.mkIO w2 _ _) dpages w3 Hd).
  rewrite decide_True by done. cbn [DogHouse.sent DogHouse.stdout].
  by rewrite <- app_assoc.
Qed.

(** X2.  The breed loader as a whole, against a probe response and a
    finite run of breed pages: it asks at least two requests (the probe
    and one page, even when the probe counts no breed); with fuel for the
    pages it returns, having appended one new breed without dogs per
    record of the pages and nothing of the probe's own records, the old
    breeds and the dogs untouched; with less fuel it is still running. *)
Theorem breeds_loader_run fuel token self (io : IO) probe w1 pages w2 :
  get (BASE_URL +:+ "/api/v1/breeds/?limit=1") token (DogHouse.world io) =
    (probe, w1) →
  DogHouse.paged get token
    (Some (BASE_URL +:+ "/api/v1/breeds/?limit=" +:+
             pretty (Z.min 100 (default 0%Z (count probe)))))
    w1 pages w2 →
  1 ≤ length pages ∧
  (length pages ≤ fuel →
   ∃ h,
     DogHouse._get_breeds_data BASE_URL get fuel token self io =
     Some (h, DogHouse.mkIO w2
                (DogHouse.sent io ++
                   GET (BASE_URL +:+ "/api/v1/breeds/?limit=1") token ::
                   map (λ p, GET p.1 token) pages)
                (DogHouse.stdout io)) ∧
     DogHouse.breeds h =
       DogHouse.breeds self ++
         map (λ it, Breed.new (item_id it) (item_name it)) (DogHouse.records pages) ∧
     DogHouse.dogs h = DogHouse.dogs self ∧
     DogHouse.get_total_breeds h =
       DogHouse.get_total_breeds self + length (DogHouse.records pages)) ∧
  (fuel < length pages →
   DogHouse._get_breeds_data BASE_URL get fuel token self io = None).
Proof.
  intros Hget Hp.
  pose proof (_get_breeds_data_paged BASE_URL get fuel token self io _ _ _ _
                Hget Hp) as Hrun.
  split_and!.
  - apply paged_start in Hp as (r & pages' & ->); [cbn; lia|done].
  - intros Hfuel. rewrite decide_True in Hrun by done.
    eexists. split; [exact Hrun|]. rewrite add_breed_records.
    split_and!; [done..|]. unfold DogHouse.get_total_breeds.
    cbn [DogHouse.breeds]. by rewrite length_app, length_map.
  - intros Hfuel. by rewrite decide_False in Hrun by lia.
Qed.

(** X3.  [get_data], on any house and whatever the API answers, only
    appends: the old dogs stay a prefix of the dog list, and the old
    breeds stay where they were with their ids and names, each having at
    most gained dogs at the end of its list. *)
Theorem get_data_only_appends fuel token self (io : IO) h io' :
  DogHouse.get_data BASE_URL get fuel token self io = Some (h, io') →
  grows self h.
Proof.
  unfold DogHouse.get_data, DogHouse._get_breeds_data, DogHouse._get_dogs_data.
  destruct (DogHouse.do_get _ _ _ _) as [probe io1].
  rewrite breeds_loop_paginate.
  destruct (DogHouse.paginate _ _ _ _ _ _ _) as [[h1 io2]|] eqn:Hb; [|done].
  rewrite dogs_loop_paginate. intros Hd.
  apply (paginate_preserves get (grows self) _ _
           (λ x it Hx, grows_trans _ _ _ Hx (grows_add_breed_record x it))
           _ _ _ _ _ _ (grows_refl self)) in Hb.
  by apply (paginate_preserves get (grows self) _ _
              (λ x it Hx, grows_trans _ _ _ Hx (grows_add_dog_record x it))
              _ _ _ _ _ _ Hb) in Hd.
Qed.

(** X4.  A pagination loop returns, for some bound on its iterations,
    exactly when the cursors of the transport form a finite run of pages
    from the start url; and whatever bound lets it return, it returns the
    same house and the same trace. *)
Theorem loops_return_iff_finite token url self (io : IO) :
  ((∃ fuel r, DogHouse.breeds_loop get fuel url token self io = Some r) ↔
   (∃ pages w', DogHouse.paged get token url (DogHouse.world io) pages w')) ∧
  ((∃ fuel r, DogHouse.dogs_loop get fuel url token self io = Some r) ↔
   (∃ pages w', DogHouse.paged get token url (DogHouse.world io) pages w')) ∧
  (∀ fuel fuel' r r',
     DogHouse.breeds_loop get fuel url token self io = Some r →
     DogHouse.breeds_loop get fuel' url token self io = Some r' → r = r') ∧
  (∀ fuel fuel' r r',
     DogHouse.dogs_loop get fuel url token self io = Some r →
     DogHouse.dogs_loop get fuel' url token self io = Some r' → r = r').
Proof.
  assert (Hiff : ∀ step,
    (∃ fuel r, DogHouse.paginate get step fuel url token self io = Some r) ↔
    (∃ pages w', DogHouse.paged get token url (DogHouse.world io) pages w')).
  { intros step. split.
    - intros (fuel & [h io'] & Hrun).
      destruct (paginate_paged _ _ _ _ _ _ _ _ _ Hrun) as [pages Hp]. eauto.
    - intros (pages & w' & Hp). exists (length pages). eexists.
      rewrite (paginate_run _ _ _ _ _ _ _ _ _ Hp). by rewrite decide_True. }
  assert (Hsame : ∀ step fuel fuel' r r',
    DogHouse.paginate get step fuel url token self io = Some r →
    DogHouse.paginate get step fuel' url token self io = Some r' → r = r').
  { intros step fuel fuel' [h io'] r' Hrun Hrun'.
    destruct (paginate_paged _ _ _ _ _ _ _ _ _ Hrun) as [pages Hp].
    rewrite (paginate_run get step token url pages _ fuel self io Hp) in Hrun.
    rewrite (paginate_run get step token url pages _ fuel' self io Hp) in Hrun'.
    repeat case_decide; congruence. }
  split_and!.
  - setoid_rewrite breeds_loop_paginate. apply Hiff.
  - setoid_rewrite dogs_loop_paginate. apply Hiff.
  - intros fuel fuel' r r'. rewrite !breeds_loop_paginate. apply Hsame.
  - intros fuel fuel' r r'. rewrite !dogs_loop_paginate. apply Hsame.
Qed.

(** X7.  In every house the loaders can produce, also when the API
    repeats a breed id or [get_data] is called again: every dog has the
    id of a loaded breed; the first breed with an id holds exactly the
    dogs of that id, in fetch order; and a later breed with the same id
    holds no dog. *)
Theorem loaded_linked (self : DogHouse.t) :
  DogHouse.loaded PostResp BASE_URL get self →
  DogHouse.dogs_have_breed self ∧
  DogHouse.first_breed_dogs_exact self ∧
  shadowed_breeds_empty self.
Proof.
  intros Hl.
  assert (well_linked self) as [? ?].
  { apply (loaded_preserves (PostResp:=PostResp) BASE_URL get well_linked); [|
      apply well_linked_breed|apply well_linked_dog|done].
    split; [by intros d Hd%elem_of_nil|]. by intros i b [Hi _]. }
  split_and!; [done..|].
  apply (loaded_preserves (PostResp:=PostResp) BASE_URL get shadowed_breeds_empty); [|
    apply shadowed_empty_breed|apply shadowed_empty_dog|done].
  by intros i b [Hi _].
Qed.

(** X8.  A completed [get_data] has only issued GET requests, all with
    the caller's token: the probe, then at least one breed page, then the
    dog pages starting at [/api/v1/dogs/]; it has printed nothing. *)
Theorem get_data_requests fuel token self (io : IO) h io' :
  DogHouse.get_data BASE_URL get fuel token self io = Some (h, io') →
  ∃ breed_urls dog_urls,
    breed_urls ≠ [] ∧
    DogHouse.sent io' =
      DogHouse.sent io ++
        map (λ u, GET u token)
          ((BASE_URL +:+ "/api/v1/breeds/?limit=1") :: breed_urls ++
           (BASE_URL +:+ "/api/v1/dogs/") :: dog_urls) ∧
    DogHouse.stdout io' = DogHouse.stdout io.
Proof.
  intros Hrun. pose proof Hrun as Hd. unfold DogHouse.get_data in Hd.
  destruct (DogHouse._get_breeds_data _ _ _ _ _ _) as [[h1 io1]|] eqn:Hb; [|done].
  destruct (_get_breeds_data_Some _ _ _ _ _ _ _ _ Hb)
    as (probe & w1 & bpages & Hget & Hbp & Hfb).
  destruct (_get_dogs_data_Some _ _ _ _ _ _ _ _ Hd) as (dpages & Hdp & Hfd).
  rewrite (get_data_paged fuel token self io _ _ _ _ _ _ Hget Hbp Hdp Hfb Hfd)
    in Hrun.
  injection Hrun as _ <-. cbn [DogHouse.sent DogHouse.stdout].
  apply paged_start in Hbp as (rb & bpages' & ->); [|done].
  apply paged_start in Hdp as (rd & dpages' & ->); [|done].
  eexists (_ :: map fst bpages'), (map fst dpages'). split_and!; [done| |done].
  f_equal. unfold requests_of. cbn [map fst app].
  rewrite map_app. cbn [map]. rewrite !map_map. reflexivity.
Qed.

(** X10.  In every house the loaders can produce, the common breed is
    the breed most dogs belong to: its dog count is the number of loaded
    dogs that carry its id, and no breed id is carried by more dogs. *)
Theorem common_breed_most_carried (self : DogHouse.t) (b : Breed.t) :
  DogHouse.loaded PostResp BASE_URL get self →
  DogHouse.get_common_breed self = Some b →
  Breed.dogs_count b =
    length (DogHouse.dogs_of (Breed.id b) (DogHouse.dogs self)) ∧
  ∀ i, length (DogHouse.dogs_of i (DogHouse.dogs self)) ≤ Breed.dogs_count b.
Proof.
  intros Hl Hc.
  assert (well_linked self) as [Hdogs Hfirst].
  { apply (loaded_preserves (PostResp:=PostResp) BASE_URL get well_linked); [|
      apply well_linked_breed|apply well_linked_dog|done].
    split; [by intros d Hd%elem_of_nil|]. by intros i b' [Hi _]. }
  assert (shadowed_breeds_empty self) as Hshadow.
  { apply (loaded_preserves (PostResp:=PostResp) BASE_URL get shadowed_breeds_empty); [|
      apply shadowed_empty_breed|apply shadowed_empty_dog|done].
    by intros i b' [Hi _]. }
  assert (DogHouse.breeds self ≠ []) as Hne.
  { intros Hnil. unfold DogHouse.get_common_breed in Hc. by rewrite Hnil in Hc. }
  destruct (get_common_breed_Some self Hne) as (b0 & Hb0 & Hin & Hmax).
  assert (b0 = b) as -> by congruence.
  assert (Hcarried : ∀ i b', b' ∈ DogHouse.breeds self → Breed.id b' = i →
    ∃ b'', b'' ∈ DogHouse.breeds self ∧ Breed.id b'' = i ∧
           Breed.dogs_count b'' =
             length (DogHouse.dogs_of i (DogHouse.dogs self)) ∧
           (b'' = b' ∨ Breed.dogs b' = [])).
  { intros i b' Hb' Hid.
    destruct (DogHouse.find_breed self (Some i)) as [[j b'']|] eqn:Hf.
    - apply find_breed_Some in Hf as ([= ->] & Hj & Hleast).
      exists b''. split_and!; [by eapply list_elem_of_lookup_2|done| |].
      + unfold Breed.dogs_count. f_equal. apply (Hfirst j). by split.
      + apply list_elem_of_lookup in Hb' as [k Hk].
        destruct (Nat.lt_total j k) as [Hlt|[->|Hgt]].
        * right. apply (Hshadow k b'). split; [done|]. by exists j, b''.
        * left. congruence.
        * by destruct (Hleast k b' Hgt Hk).
    - exfalso. eapply find_breed_None in Hf; [|exact Hb']. by rewrite Hid in Hf. }
  split.
  - destruct (Hcarried (Breed.id b) b Hin eq_refl)
      as (b'' & Hin'' & _ & Hcount & [->|Hempty]); [done|].
    specialize (Hmax b'' Hin''). unfold Breed.dogs_count in *.
    rewrite Hempty in *. cbn [length] in *. lia.
  - intros i.
    destruct (DogHouse.dogs_of i (DogHouse.dogs self)) as [|d ds] eqn:Hds;
      [cbn; lia|].
    assert (d ∈ DogHouse.dogs_of i (DogHouse.dogs self)) as Hd
      by (rewrite Hds; by left).
    apply list_elem_of_filter in Hd as [Hbreed Hd].
    destruct (Hdogs d Hd) as (b' & Hb' & Hid).
    destruct (Hcarried i b' Hb' ltac:(congruence))
      as (b'' & Hin'' & _ & Hcount & _).
    rewrite <- Hds, <- Hcount. by apply Hmax.
Qed.
End LoaderProperties.

(** ** The whole flow *)

Section Flow.
Context {W PostResp : Type}.
Variable BASE_URL : string.
Variable get : string → string → W → Response * W.
Variable post : string → dict → string → W → PostResp * W.

Abbreviation IO := (DogHouse.IO W PostResp).

(** X9.  [get_data] on a fresh house followed by [send_data], against a
    probe, a finite run of breed pages and a finite run of dog pages.
    The loading returns, with as many breeds as breed records and as many
    dogs as dog records whose breed id is among the breed records' ids.
    If the breed pages carry no record, nothing at all is loaded and
    [send_data] raises the [AttributeError]; otherwise [send_data] posts
    these two totals with the name of a breed of the largest dog count
    and a common dog name, after the GETs of the loading, and prints the
    response. *)
Theorem load_then_send fuel token data (io : IO) probe w1 bpages w2 dpages w3 :
  get (BASE_URL +:+ "/api/v1/breeds/?limit=1") token (DogHouse.world io) =
    (probe, w1) →
  DogHouse.paged get token
    (Some (BASE_URL +:+ "/api/v1/breeds/?limit=" +:+
             pretty (Z.min 100 (default 0%Z (count probe)))))
    w1 bpages w2 →
  DogHouse.paged get token (Some (BASE_URL +:+ "/api/v1/dogs/")) w2 dpages w3 →
  length bpages ≤ fuel → length dpages ≤ fuel →
  let total_breeds := length (DogHouse.records bpages) in
  let total_dogs :=
    length (omap (DogHouse.resolve (map item_id (DogHouse.records bpages)))
              (DogHouse.records dpages)) in
  let gets :=
    GET (BASE_URL +:+ "/api/v1/breeds/?limit=1") token ::
    map (λ p, GET p.1 token) bpages ++ map (λ p, GET p.1 token) dpages in
  ∃ h,
    DogHouse.get_data BASE_URL get fuel token DogHouse.new io =
      Some (h, DogHouse.mkIO w3 (DogHouse.sent io ++ gets) (DogHouse.stdout io)) ∧
    DogHouse.get_total_breeds h = total_breeds ∧
    DogHouse.get_total_dogs h = total_dogs ∧
    match DogHouse.records bpages with
    | [] =>
        h = DogHouse.new ∧
        DogHouse.send_data BASE_URL post data token h
          (DogHouse.mkIO w3 (DogHouse.sent io ++ gets) (DogHouse.stdout io)) =
        inl (AttributeError "'NoneType' object has no attribute 'name'")
    | _ :: _ =>
        ∃ b n r w4,
          b ∈ DogHouse.breeds h ∧
          (∀ b', b' ∈ DogHouse.breeds h →
                 Breed.dogs_count b' ≤ Breed.dogs_count b) ∧
          DogHouse.get_common_dog_name h = inr n ∧
          post (BASE_URL +:+ "/api/v1/answer/")
            (answer total_breeds total_dogs (Breed.name b) n) token w3 = (r, w4) ∧
          DogHouse.send_data BASE_URL post data token h
            (DogHouse.mkIO w3 (DogHouse.sent io ++ gets) (DogHouse.stdout io)) =
          inr (DogHouse.mkIO w4
                 (DogHouse.sent io ++ gets ++
                    [POST (BASE_URL +:+ "/api/v1/answer/")
                       (answer total_breeds total_dogs (Breed.name b) n) token])
                 (DogHouse.stdout io ++ [r]))
    end.
Proof.
  intros Hget Hb Hd Hfb Hfd total_breeds total_dogs gets.
  pose proof (get_data_paged BASE_URL get fuel token DogHouse.new io
                probe w1 bpages w2 dpages w3 Hget Hb Hd Hfb Hfd) as Hrun.
  set (h1 := fold_left DogHouse.add_breed_record (DogHouse.records bpages)
               DogHouse.new) in Hrun.
  set (h := fold_left DogHouse.add_dog_record (DogHouse.records dpages) h1) in Hrun.
  assert (Hids1 : DogHouse.breed_ids h1 = map item_id (DogHouse.records bpages))
    by apply add_breed_records_ids.
  assert (Hids : DogHouse.breed_ids h = map item_id (DogHouse.records bpages))
    by (subst h; by rewrite add_dog_records_ids).
  assert (Hdogs : DogHouse.dogs h =
                  omap (DogHouse.resolve (map item_id (DogHouse.records bpages)))
                    (DogHouse.records dpages)).
  { subst h. rewrite add_dog_records_dogs, Hids1. subst h1.
    by rewrite add_breed_records. }
  assert (Hlen : DogHouse.get_total_breeds h = total_breeds).
  { unfold DogHouse.get_total_breeds.
    rewrite <- (length_map Breed.id). fold (DogHouse.breed_ids h).
    rewrite Hids. by rewrite length_map. }
  exists h. split_and!; [exact Hrun|exact Hlen|by (unfold DogHouse.get_total_dogs; rewrite Hdogs)|].
  destruct (DogHouse.records bpages) as [|it its] eqn:Hrec.
  - assert (h = DogHouse.new) as Hnew.
    { destruct h as [bs ds]. cbn [DogHouse.dogs] in Hdogs.
      unfold DogHouse.breed_ids in Hids. cbn [DogHouse.breeds map] in Hids.
      rewrite resolve_no_breeds in Hdogs. destruct bs; [|done]. by subst ds. }
    split; [done|]. by rewrite Hnew.
  - assert (DogHouse.breeds h ≠ []) as Hne.
    { intros Hnil. unfold DogHouse.breed_ids in Hids. by rewrite Hnil in Hids. }
    destruct (get_common_breed_Some h Hne) as (b & Hcb & Hin & Hmax).
    destruct (get_common_dog_name_inr h) as [n Hn].
    pose proof (send_data_with_breed BASE_URL post data token h
                  (DogHouse.mkIO w3 (DogHouse.sent io ++ gets) (DogHouse.stdout io))
                  b n Hcb Hn) as Hsend.
    cbv zeta in Hsend. cbn [DogHouse.world DogHouse.sent DogHouse.stdout] in Hsend.
    unfold DogHouse.get_total_dogs in Hsend.
    rewrite Hlen, Hdogs in Hsend. fold total_dogs in Hsend.
    destruct (post _ _ _ _) as [r w4] eqn:Hp.
    exists b, n, r, w4. split_and!; [done..|].
    by rewrite Hsend, <- app_assoc.
Qed.
End Flow.

(** ** The further properties on the concrete sessions *)

(** The breed loader on [session]: the probe and two pages, three breeds
    loaded; one iteration is not enough for two pages. *)
Lemma breeds_loader_run_witness :
  1 ≤ length breed_pages ∧
  DogHouse._get_breeds_data "" script_get 2 "token" DogHouse.new (io0 session) =
    Some (house_breeds_only, DogHouse.mkIO (drop 3 session) breed_requests []) ∧
  DogHouse._get_breeds_data "" script_get 1 "token" DogHouse.new (io0 session) =
    None.
Proof.
  pose proof (breeds_loader_run (PostResp := unit) "" script_get 2 "token"
                DogHouse.new (io0 session) _ _ breed_pages _
                eq_refl breed_pages_paged) as (Hlen & _ & _).
  split; [exact Hlen|]. by split.
Defined.

(** [get_data] on a house that already holds the three breeds of
    [session]: the breeds come a second time, behind the old ones, and
    the dogs go to the old ones. *)
Lemma get_data_only_appends_witness :
  ∃ io',
    DogHouse.get_data "" script_get 2 "token" house_breeds_only (io0 session) =
      Some (DogHouse.mk
              (DogHouse.breeds house_session ++ DogHouse.breeds house_breeds_only)
              (DogHouse.dogs house_session), io') ∧
    grows house_breeds_only
      (DogHouse.mk
         (DogHouse.breeds house_session ++ DogHouse.breeds house_breeds_only)
         (DogHouse.dogs house_session)).
Proof.
  eexists. split; [reflexivity|].
  exact (get_data_only_appends (PostResp := unit) "" script_get 2 "token"
           house_breeds_only (io0 session) _ _ eq_refl).
Defined.

Lemma house_twice_loaded : DogHouse.loaded unit "" script_get house_twice.
Proof.
  eapply (loaded_get_data "" script_get 1 "token" DogHouse.new (io0 session_twice));
    [apply DogHouse.loaded_new|reflexivity].
Qed.

Lemma house_session_loaded : DogHouse.loaded unit "" script_get house_session.
Proof.
  eapply (loaded_get_data "" script_get 2 "token" DogHouse.new (io0 session));
    [apply DogHouse.loaded_new|reflexivity].
Qed.

(** The house with breed 1 twice: the first copy has the dog, the second
    has none. *)
Lemma loaded_linked_witness :
  DogHouse.loaded unit "" script_get house_twice ∧
  DogHouse.dogs_have_breed house_twice ∧
  DogHouse.first_breed_dogs_exact house_twice ∧
  shadowed_breeds_empty house_twice.
Proof.
  split; [exact house_twice_loaded|].
  exact (loaded_linked "" script_get house_twice house_twice_loaded).
Defined.

(** The five GETs of [session]. *)
Lemma get_data_requests_witness :
  ∃ breed_urls dog_urls,
    breed_urls ≠ [] ∧
    session_requests =
      [] ++ map (λ u, GET u "token")
              ("/api/v1/breeds/?limit=1" :: breed_urls ++
               "/api/v1/dogs/" :: dog_urls) ∧
    @nil unit = [].
Proof.
  exact (get_data_requests "" script_get 2 "token" DogHouse.new (io0 session)
           house_session (DogHouse.mkIO [] session_requests []) eq_refl).
Defined.

(** In the house of [session], breed A has two dogs and no breed id is
    carried by more than two. *)
Lemma common_breed_most_carried_witness :
  DogHouse.get_common_breed house_session =
    Some (Breed.mk 1 "A" [Dog.mk 10 "Rex" 1; Dog.mk 12 "Rex" 1]) ∧
  2 = length (DogHouse.dogs_of 1 (DogHouse.dogs house_session)) ∧
  ∀ i, length (DogHouse.dogs_of i (DogHouse.dogs house_session)) ≤ 2.
Proof.
  split; [reflexivity|].
  exact (common_breed_most_carried "" script_get house_session _
           house_session_loaded eq_refl).
Defined.

(** The whole of [session], then the submission: three breeds, three
    dogs, breed A and the name Rex. *)
Lemma load_then_send_witness :
  ∃ h io2,
    DogHouse.get_data "" script_get 2 "token" DogHouse.new (io0 session) =
      Some (h, DogHouse.mkIO [] session_requests []) ∧
    DogHouse.get_total_breeds h = 3 ∧
    DogHouse.get_total_dogs h = 3 ∧
    DogHouse.send_data "" script_post [] "token" h
      (DogHouse.mkIO [] session_requests []) = inr io2 ∧
    DogHouse.sent io2 =
      session_requests ++ [POST "/api/v1/answer/" (answer 3 3 "A" "Rex") "token"].
Proof.
  destruct (load_then_send "" script_get script_post 2 "token" [] (io0 session)
              _ _ breed_pages _ dog_pages _
              eq_refl breed_pages_paged dog_pages_paged (le_n 2) (le_n 2))
    as (h & Hrun & Hb & Hd & _).
  exists h. eexists. split_and!; [exact Hrun|exact Hb|exact Hd|..].
  - assert (h = house_session) as ->.
    { pose proof (eq_refl : DogHouse.get_data "" script_get 2 "token"
                              DogHouse.new (io0 session) =
                            Some (house_session,
                                  DogHouse.mkIO [] session_requests [])) as Hc.
      rewrite Hrun in Hc. by injection Hc. }
    reflexivity.
  - reflexivity.
Defined.

(** Nothing in the loader needs the API to list a breed: on an empty
    breed list every dog record is dropped and the submission fails. *)
Lemma load_then_send_no_breeds :
  DogHouse.get_data "" script_get 1 "token" DogHouse.new
    (io0 [mkResponse (Some 0%Z) None None; mkResponse None (Some []) None;
          mkResponse None (Some [mkItem 10 "Rex" (Some 1%Z)]) None]) =
  Some (DogHouse.new,
        DogHouse.mkIO []
          [ GET "/api/v1/breeds/?limit=1" "token";
            GET "/api/v1/breeds/?limit=0" "token";
            GET "/api/v1/dogs/" "token" ] []).
Proof. reflexivity. Qed.

(** ** The dog loader as a whole *)

Lemma same_breeds_add_dog_record (self : DogHouse.t) (it : Item) :
  Forall2 same_breed_grown (DogHouse.breeds self)
    (DogHouse.breeds (DogHouse.add_dog_record self it)).
Proof.
  destruct (grows_add_dog_record self it) as [_ (old & new & Heq & Hf)].
  assert (length (DogHouse.breeds (DogHouse.add_dog_record self it)) =
          length (DogHouse.breeds self)) as Hlen.
  { rewrite <- (length_map Breed.id (DogHouse.breeds (DogHouse.add_dog_record self it))).
    fold (DogHouse.breed_ids (DogHouse.add_dog_record self it)).
    rewrite add_dog_record_ids. unfold DogHouse.breed_ids. by rewrite length_map. }
  apply Forall2_length in Hf as Hl. rewrite Heq, length_app in Hlen.
  destruct new; [|cbn in Hlen; lia]. by rewrite Heq, app_nil_r.
Qed.

Section DogLoader.
Context {W PostResp : Type}.
Variable BASE_URL : string.
Variable get : string → string → W → Response * W.

Abbreviation IO := (DogHouse.IO W PostResp).

(** X11.  The dog loader as a whole, against a finite run of dog pages
    from [/api/v1/dogs/]: it asks at least one request; with fuel for the
    pages it returns, and then no breed was added, removed, moved or
    renamed (each has at most gained dogs), and the dogs have grown by
    the records whose breed id is loaded, which is at most the number of
    records; with less fuel it is still running. *)
Theorem dogs_loader_run fuel token self (io : IO) pages w' :
  DogHouse.paged get token (Some (BASE_URL +:+ "/api/v1/dogs/"))
    (DogHouse.world io) pages w' →
  1 ≤ length pages ∧
  (length pages ≤ fuel →
   ∃ h,
     DogHouse._get_dogs_data BASE_URL get fuel token self io =
     Some (h, DogHouse.mkIO w'
                (DogHouse.sent io ++ map (λ p, GET p.1 token) pages)
                (DogHouse.stdout io)) ∧
     Forall2 same_breed_grown (DogHouse.breeds self) (DogHouse.breeds h) ∧
     DogHouse.get_total_breeds h = DogHouse.get_total_breeds self ∧
     DogHouse.get_total_dogs h =
       DogHouse.get_total_dogs self +
       length (omap (DogHouse.resolve (DogHouse.breed_ids self))
                 (DogHouse.records pages)) ∧
     DogHouse.get_total_dogs h ≤
       DogHouse.get_total_dogs self + length (DogHouse.records pages)) ∧
  (fuel < length pages →
   DogHouse._get_dogs_data BASE_URL get fuel token self io = None).
Proof.
  intros Hp.
  pose proof (_get_dogs_data_paged BASE_URL get fuel token self io pages w' Hp)
    as Hrun.
  split_and!.
  - apply paged_start in Hp as (r & pages' & ->); [cbn; lia|done].
  - intros Hfuel. rewrite decide_True in Hrun by done.
    eexists. split; [exact Hrun|].
    set (h := fold_left DogHouse.add_dog_record (DogHouse.records pages) self).
    assert (Hsame : Forall2 same_breed_grown (DogHouse.breeds self)
                      (DogHouse.breeds h)).
    { subst h. apply (fold_left_preserves
        (λ x, Forall2 same_breed_grown (DogHouse.breeds self) (DogHouse.breeds x))).
      - intros x it Hx. eapply Forall2_trans; [|exact Hx|apply same_breeds_add_dog_record].
        apply same_breed_grown_trans.
      - apply Forall_Forall2_diag, Forall_forall. intros b _.
        apply same_breed_grown_refl. }
    assert (Hdogs : DogHouse.get_total_dogs h =
                    DogHouse.get_total_dogs self +
                    length (omap (DogHouse.resolve (DogHouse.breed_ids self))
                              (DogHouse.records pages))).
    { unfold DogHouse.get_total_dogs. subst h.
      by rewrite add_dog_records_dogs, length_app. }
    split_and!; [done| |done|].
    + unfold DogHouse.get_total_breeds. symmetry. by eapply Forall2_length.
    + rewrite Hdogs. apply Nat.add_le_mono_l.
      generalize (DogHouse.records pages). intros items.
      induction items as [|it items IH]; [done|]. cbn [omap list_omap length].
      destruct (DogHouse.resolve _ it); cbn [length]; lia.
  - intros Hfuel. by rewrite decide_False in Hrun by lia.
Qed.
End DogLoader.

(** The dog pages of [session] on the three breeds: five records, three
    dogs, the breeds in place. *)
Lemma dogs_loader_run_witness :
  1 ≤ length dog_pages ∧
  DogHouse._get_dogs_data "" script_get 2 "token" house_breeds_only
    (io0 (drop 3 session)) =
    Some (house_session,
          DogHouse.mkIO []
            [GET "/api/v1/dogs/" "token"; GET "dogs?page=2" "token"] []) ∧
  DogHouse.get_total_dogs house_session = 0 + 3 ∧
  length (DogHouse.records dog_pages) = 5.
Proof.
  pose proof (dogs_loader_run (PostResp := unit) "" script_get 2 "token"
                house_breeds_only (io0 (drop 3 session)) dog_pages []
                dog_pages_paged) as (Hlen & _ & _).
  split; [exact Hlen|]. by repeat split.
Defined.

(** ** The probe and the page size *)

Section Probe.
Context {W PostResp : Type}.
Variable BASE_URL : string.
Variable get : string → string → W → Response * W.

Abbreviation IO := (DogHouse.IO W PostResp).

(** C9.  Whatever the probe with limit 1 answers, the breed loader goes
    on with a request of limit min(100, count), count being the probe's
    [count] or 0 if it has none, and enters its loop with exactly these
    two requests made, whether or not the loop ever ends.  Against a
    finite run of breed pages and with fuel for them it returns, and the
    requests it has made are the probe, that first page, and one more per
    further page.  For count 0 the second request has limit 0. *)
Theorem breeds_probe_then_first_page fuel token self (io : IO) probe w1 :
  get (BASE_URL +:+ "/api/v1/breeds/?limit=1") token (DogHouse.world io) =
    (probe, w1) →
  let total_breeds := default 0%Z (count probe) in
  let first :=
    BASE_URL +:+ "/api/v1/breeds/?limit=" +:+ pretty (Z.min 100 total_breeds) in
  let asked :=
    DogHouse.sent io ++
      [GET (BASE_URL +:+ "/api/v1/breeds/?limit=1") token; GET first token] in
  (∃ r w2,
      get first token w1 = (r, w2) ∧
      DogHouse._get_breeds_data BASE_URL get (S fuel) token self io =
      DogHouse.breeds_loop get fuel (next r) token
        (fold_left DogHouse.add_breed_record (default [] (results r)) self)
        (DogHouse.mkIO w2 asked (DogHouse.stdout io))) ∧
  (∀ pages w2,
      DogHouse.paged get token (Some first) w1 pages w2 →
      length pages ≤ fuel →
      ∃ h rest,
        DogHouse._get_breeds_data BASE_URL get fuel token self io =
        Some (h, DogHouse.mkIO w2 (asked ++ rest) (DogHouse.stdout io)) ∧
        S (length rest) = length pages) ∧
  (total_breeds = 0%Z → first = BASE_URL +:+ "/api/v1/breeds/?limit=0").
Proof.
  intros Hget total_breeds first asked. split_and!.
  - destruct (get first token w1) as [r w2] eqn:Hfirst. exists r, w2.
    split; [done|].
    unfold DogHouse._get_breeds_data, DogHouse.do_get.
    change (DogHouse.breeds_url BASE_URL 1)
      with (BASE_URL +:+ "/api/v1/breeds/?limit=1").
    rewrite Hget. cbn [DogHouse.breeds_loop].
    change (DogHouse.breeds_url BASE_URL (Z.min 100 (default 0%Z (count probe))))
      with (BASE_URL +:+ ("/api/v1/breeds/?limit=" +:+ pretty (Z.min 100 total_breeds))).
    rewrite truthy_append by done.
    unfold DogHouse.do_get. cbn [DogHouse.world DogHouse.sent DogHouse.stdout].
    fold first. rewrite Hfirst. subst asked. by rewrite <- app_assoc.
  - intros pages w2 Hp Hfuel.
    pose proof (_get_breeds_data_paged BASE_URL get fuel token self io
                  probe w1 pages w2 Hget Hp) as Hrun.
    rewrite decide_True in Hrun by done.
    apply paged_start in Hp as (r & pages' & ->); [|done].
    eexists _, (requests_of token pages').
    split; [|unfold requests_of; by rewrite length_map].
    rewrite Hrun. subst asked. rewrite <- app_assoc. done.
  - by intros ->.
Qed.
End Probe.

(** On [session] the probe reports 3 breeds, so the first page is asked
    with limit 3; the run of two pages ends with three requests made. *)
Lemma breeds_probe_then_first_page_witness :
  ∃ h rest,
    DogHouse._get_breeds_data "" script_get 2 "token" DogHouse.new (io0 session) =
    Some (h, DogHouse.mkIO (drop 3 session)
               (([] ++ [GET "/api/v1/breeds/?limit=1" "token";
                        GET "/api/v1/breeds/?limit=3" "token"]) ++ rest) []) ∧
    S (length rest) = 2.
Proof.
  destruct (breeds_probe_then_first_page (PostResp := unit) "" script_get 2
              "token" DogHouse.new (io0 session) _ _ eq_refl)
    as (_ & Htotal & _).
  exact (Htotal breed_pages (drop 3 session) breed_pages_paged (le_n 2)).
Defined.
